(** * Noisy IQN agent with Persistent Advantage Learning

    A shallow embedding of [trackmania_rl/agents/noisy_iqn_pal2.py]: the
    dueling, quantile-conditioned network [Agent] and its [Trainer]
    ([train_on_batch], [get_exploration_action]).

    Tensors are modelled as a shape together with row-major data, the way the
    numeric library lays them out; scalars are exact rationals, so that every
    statement about values is a statement about the real-number semantics of
    the floating-point program.  Tensor operations check ranks and sizes as
    the library does and return an error where the library raises. *)

From Stdlib Require Import String.
From Stdlib Require Import List Arith ZArith QArith Qabs Qround Lia Lqa Bool.
Import ListNotations.

Set Implicit Arguments.
#[local] Open Scope nat_scope.

(** ** Errors and the error monad *)

Inductive error : Type :=
| DimMismatch (op : string)      (* operands must have the same number of dimensions *)
| ShapeMismatch (op : string)    (* sizes disagree, or are not broadcastable *)
| IndexOutOfRange (op : string)  (* an index lies outside the indexed dimension *)
| EmptyReduction (op : string)   (* max / argmax over a dimension of size 0 *)
| ValueError (op : string)
| ZeroDivisionError (op : string)
| OverflowError (op : string).

Inductive result (A : Type) : Type :=
| Ok (a : A)
| Err (e : error).
Arguments Ok {A} a.
Arguments Err {A} e.

Definition bind {A B : Type} (m : result A) (k : A -> result B) : result B :=
  match m with
  | Ok a => k a
  | Err e => Err e
  end.

Declare Scope result_scope.
Delimit Scope result_scope with result.
Notation "x <- m ;; k" := (bind m (fun x => k))
  (at level 61, m at next level, right associativity) : result_scope.
Notation "' p <- m ;; k" := (bind m (fun x => let p := x in k))
  (at level 61, p pattern, m at next level, right associativity) : result_scope.

#[local] Open Scope result_scope.

Definition is_ok {A : Type} (m : result A) : bool :=
  match m with Ok _ => true | Err _ => false end.

(** ** Tensors *)

Class Dflt (A : Type) := dflt : A.
#[global] Instance Dflt_Q : Dflt Q := 0%Q.
#[global] Instance Dflt_Z : Dflt Z := 0%Z.
#[global] Instance Dflt_bool : Dflt bool := false.

Record tensor (A : Type) : Type := mkT { shape : list nat; data : list A }.
Arguments mkT {A} shape data.

Fixpoint numel (sh : list nat) : nat :=
  match sh with
  | [] => 1
  | d :: sh' => d * numel sh'
  end.

(** Row-major offset of a multi-index, and its inverse. *)
Fixpoint ravel (sh idx : list nat) : nat :=
  match sh, idx with
  | _ :: sh', i :: idx' => i * numel sh' + ravel sh' idx'
  | _, _ => 0
  end.

Fixpoint unravel (sh : list nat) (k : nat) : list nat :=
  match sh with
  | [] => []
  | _ :: sh' => (k / numel sh') :: unravel sh' (k mod numel sh')
  end.

Fixpoint in_range (sh idx : list nat) : Prop :=
  match sh, idx with
  | [], [] => True
  | d :: sh', i :: idx' => i < d /\ in_range sh' idx'
  | _, _ => False
  end.

Definition wf {A : Type} (t : tensor A) : Prop :=
  length (data t) = numel (shape t).

Definition get {A : Type} `{Dflt A} (t : tensor A) (idx : list nat) : A :=
  nth (ravel (shape t) idx) (data t) dflt.

(** [t.[i, j]] reads an entry; the indices are natural numbers wherever the
    notation stands. *)
Notation "t .[ i ]" := (get t (cons i%nat nil))
  (at level 1, left associativity, format "t .[ i ]").
Notation "t .[ i , j ]" := (get t (cons i%nat (cons j%nat nil)))
  (at level 1, left associativity, format "t .[ i ,  j ]").
Notation "t .[ i , j , k ]" := (get t (cons i%nat (cons j%nat (cons k%nat nil))))
  (at level 1, left associativity, format "t .[ i ,  j ,  k ]").
Notation "t .[ i , j , k , l ]" :=
  (get t (cons i%nat (cons j%nat (cons k%nat (cons l%nat nil)))))
  (at level 1, left associativity, format "t .[ i ,  j ,  k ,  l ]").

Definition build {A : Type} (sh : list nat) (f : list nat -> A) : tensor A :=
  mkT sh (map (fun k => f (unravel sh k)) (seq 0 (numel sh))).

(** Elementwise application of a scalar function. *)
Definition tmap {A B : Type} `{Dflt A} (f : A -> B) (t : tensor A) : tensor B :=
  build (shape t) (fun idx => f (get t idx)).

(** A one-dimensional tensor from a sequence of scalars ([np.array] of a
    list of numbers followed by [torch.as_tensor]). *)
Definition of_list {A : Type} (l : list A) : tensor A := mkT [length l] l.

(** ** Core lemmas on indexing *)

Lemma ravel_lt (sh idx : list nat) :
  in_range sh idx -> ravel sh idx < numel sh.
Proof.
  revert idx; induction sh as [|d sh IH]; intros [|i idx]; simpl; try tauto.
  - lia.
  - intros [Hi Hr]. specialize (IH _ Hr). nia.
Qed.

Lemma unravel_ravel (sh idx : list nat) :
  in_range sh idx -> unravel sh (ravel sh idx) = idx.
Proof.
  revert idx; induction sh as [|d sh IH]; intros [|i idx]; simpl; try tauto.
  intros [Hi Hr].
  pose proof (ravel_lt _ _ Hr) as Hlt.
  assert (Hn : numel sh <> 0) by lia.
  rewrite Nat.div_add_l by exact Hn.
  rewrite (Nat.div_small _ _ Hlt), Nat.add_0_r.
  rewrite Nat.add_comm, Nat.Div0.mod_add, (Nat.mod_small _ _ Hlt).
  now rewrite IH.
Qed.

Lemma nth_map_seq {A : Type} (g : nat -> A) (n k : nat) (d : A) :
  k < n -> nth k (map g (seq 0 n)) d = g k.
Proof.
  intros Hk.
  rewrite (nth_indep _ d (g 0)) by now rewrite length_map, length_seq.
  rewrite map_nth, seq_nth by exact Hk. reflexivity.
Qed.

Lemma get_build {A : Type} `{Dflt A} (sh : list nat) (f : list nat -> A) (idx : list nat) :
  in_range sh idx -> get (build sh f) idx = f idx.
Proof.
  intros Hr. unfold get, build; simpl.
  rewrite nth_map_seq by now apply ravel_lt.
  now rewrite unravel_ravel.
Qed.

Lemma shape_build {A : Type} (sh : list nat) (f : list nat -> A) :
  shape (build sh f) = sh.
Proof. reflexivity. Qed.

Lemma wf_build {A : Type} (sh : list nat) (f : list nat -> A) : wf (build sh f).
Proof. unfold wf, build; simpl. now rewrite length_map, length_seq. Qed.

Lemma unravel_in_range (sh : list nat) (k : nat) :
  k < numel sh -> in_range sh (unravel sh k).
Proof.
  revert k; induction sh as [|d sh IH]; intros k Hk; simpl in *; [exact I|].
  assert (Hn : numel sh <> 0) by (intros E; rewrite E in Hk; lia).
  split.
  - apply Nat.Div0.div_lt_upper_bound. lia.
  - apply IH. now apply Nat.mod_upper_bound.
Qed.

(** ** List helpers for shapes and multi-indices *)

Fixpoint map2 {A B C : Type} (f : A -> B -> C) (l1 : list A) (l2 : list B) : list C :=
  match l1, l2 with
  | x :: l1', y :: l2' => f x y :: map2 f l1' l2'
  | _, _ => []
  end.

Fixpoint insert_at {A : Type} (d : nat) (x : A) (l : list A) : list A :=
  match d, l with
  | 0, _ => x :: l
  | S d', y :: l' => y :: insert_at d' x l'
  | S _, [] => [x]
  end.

Fixpoint remove_at {A : Type} (d : nat) (l : list A) : list A :=
  match d, l with
  | _, [] => []
  | 0, _ :: l' => l'
  | S d', y :: l' => y :: remove_at d' l'
  end.

Fixpoint replace_at {A : Type} (d : nat) (x : A) (l : list A) : list A :=
  match d, l with
  | _, [] => []
  | 0, _ :: l' => x :: l'
  | S d', y :: l' => y :: replace_at d' x l'
  end.

Definition swap_at (i j : nat) (l : list nat) : list nat :=
  replace_at i (nth j l 0) (replace_at j (nth i l 0) l).

Fixpoint shape_eqb (a b : list nat) : bool :=
  match a, b with
  | [], [] => true
  | x :: a', y :: b' => (x =? y) && shape_eqb a' b'
  | _, _ => false
  end.

Definition rank {A : Type} (t : tensor A) : nat := length (shape t).

Definition size {A : Type} (t : tensor A) (d : nat) : nat := nth d (shape t) 0.

(** A dimension argument that may count from the end ([dim=-1]). *)
Definition norm_dim (op : string) (r : nat) (d : Z) : result nat :=
  if ((- Z.of_nat r <=? d) && (d <? Z.of_nat r))%Z
  then Ok (Z.to_nat (d mod Z.of_nat r))
  else Err (IndexOutOfRange op).

(** ** Scalars *)

Definition Qsum (l : list Q) : Q := fold_right Qplus 0%Q l.

Definition Qmean (l : list Q) : Q := (Qsum l / inject_Z (Z.of_nat (length l)))%Q.

Definition Qlt_bool (x y : Q) : bool := negb (Qle_bool y x).

Definition qmax (x y : Q) : Q := if Qle_bool x y then y else x.

Definition qmin (x y : Q) : Q := if Qle_bool x y then x else y.

(** Maximum of a sequence and the first position where it is attained
    ([torch.max], [torch.argmax], [np.argmax]: the first maximal value wins). *)
Fixpoint argmax_from (l : list Q) (i best : nat) (bv : Q) : nat * Q :=
  match l with
  | [] => (best, bv)
  | x :: l' =>
      if Qlt_bool bv x then argmax_from l' (S i) i x
      else argmax_from l' (S i) best bv
  end.

Definition list_argmax (l : list Q) : nat :=
  match l with
  | [] => 0
  | x :: l' => fst (argmax_from l' 1 0 x)
  end.

Definition list_max (l : list Q) : Q :=
  match l with
  | [] => 0%Q
  | x :: l' => snd (argmax_from l' 1 0 x)
  end.

(** ** Tensor operations, with the checks the library performs *)

Section Ops.
Context {A : Type} `{Dflt A}.

(** [t.reshape(spec)]: one entry of [spec] may be [-1]. *)
Definition infer_shape (n : nat) (spec : list Z) : result (list nat) :=
  let known := numel (map Z.to_nat (filter (fun z => 0 <=? z)%Z spec)) in
  if existsb (fun z => z <? -1)%Z spec then Err (ShapeMismatch "reshape")
  else match length (filter (fun z => z =? -1)%Z spec) with
       | 0 => if known =? n then Ok (map Z.to_nat spec)
              else Err (ShapeMismatch "reshape")
       | 1 => if (known =? 0) || negb (n mod known =? 0)
              then Err (ShapeMismatch "reshape")
              else Ok (map (fun z => if (z =? -1)%Z then n / known else Z.to_nat z) spec)
       | _ => Err (ShapeMismatch "reshape")
       end.

Definition reshape (t : tensor A) (spec : list Z) : result (tensor A) :=
  sh <- infer_shape (numel (shape t)) spec ;;
  Ok (mkT sh (data t)).

(** Shapes are aligned on the right: a shape is padded with leading ones. *)
Definition pad (n : nat) (sh : list nat) : list nat :=
  repeat 1 (n - length sh) ++ sh.

(** [t.repeat(reps)]: tiles [t], [reps] has at least as many entries as
    [t] has dimensions and no negative entry. *)
Definition trepeat (t : tensor A) (reps : list Z) : result (tensor A) :=
  if existsb (fun z => z <? 0)%Z reps then Err (ValueError "repeat")
  else if length reps <? rank t then Err (DimMismatch "repeat")
  else
    let sh := pad (length reps) (shape t) in
    Ok (build (map2 Nat.mul (map Z.to_nat reps) sh)
              (fun idx => get (mkT sh (data t)) (map2 Nat.modulo idx sh))).

(** [t.unsqueeze(d)]. *)
Definition unsqueeze (d : nat) (t : tensor A) : tensor A :=
  mkT (insert_at d 1 (shape t)) (data t).

(** Indexing with [before] full slices, then [None], then [after] full
    slices, as in [t[:, None]] and [t[:, :, None, :]]. *)
Definition slice_none (before after : nat) (t : tensor A) : result (tensor A) :=
  if rank t <? before + after then Err (IndexOutOfRange "index")
  else Ok (unsqueeze before t).

(** [t[:, i]] and the like: the sub-tensor at position [i] of dimension [d]. *)
Definition select (d i : nat) (t : tensor A) : result (tensor A) :=
  if rank t <=? d then Err (IndexOutOfRange "index")
  else if size t d <=? i then Err (IndexOutOfRange "index")
  else Ok (build (remove_at d (shape t)) (fun idx => get t (insert_at d i idx))).

(** [t.transpose(d0, d1)]. *)
Definition transpose (d0 d1 : nat) (t : tensor A) : result (tensor A) :=
  if (d0 <? rank t) && (d1 <? rank t)
  then Ok (build (swap_at d0 d1 (shape t)) (fun idx => get t (swap_at d0 d1 idx)))
  else Err (IndexOutOfRange "transpose").

(** The entries of [t] along dimension [d], at the other coordinates [idx]
    (which keeps a placeholder at position [d]). *)
Definition fibre (d : nat) (t : tensor A) (idx : list nat) : list A :=
  map (fun k => get t (replace_at d k idx)) (seq 0 (size t d)).

(** Reduction of dimension [d], which is dropped ([keepdim=False]) or kept
    with size one ([keepdim=True]). *)
Definition reduce {B : Type} (f : list A -> B) (d : nat) (t : tensor A) : tensor B :=
  build (remove_at d (shape t)) (fun idx => f (fibre d t (insert_at d 0 idx))).

Definition reduce_keep {B : Type} (f : list A -> B) (d : nat) (t : tensor A) : tensor B :=
  build (replace_at d 1 (shape t)) (fun idx => f (fibre d t idx)).

(** [torch.gather(t, d, index)]: [index] must have as many dimensions as
    [t] and be no larger than [t] in every dimension but [d]; the result has
    the shape of [index]. *)
Definition nonempty_dim (r : nat) : nat := Nat.max r 1.

Definition sizes_le (d : nat) (ish tsh : list nat) : bool :=
  forallb (fun k => (k =? d) || (nth k ish 0 <=? nth k tsh 0)) (seq 0 (length ish)).

Definition gather (t : tensor A) (d : nat) (index : tensor Z) : result (tensor A) :=
  if negb (nonempty_dim (rank t) =? nonempty_dim (rank index))
  then Err (DimMismatch "gather")
  else if negb (sizes_le d (shape index) (shape t))
  then Err (ShapeMismatch "gather")
  else if negb (forallb (fun z => (0 <=? z) && (z <? Z.of_nat (size t d)))%Z (data index))
  then Err (IndexOutOfRange "gather")
  else Ok (build (shape index)
                 (fun idx => get t (replace_at d (Z.to_nat (get index idx)) idx))).

(** [torch.cat((a, b), d)]. *)
Definition cat (d : nat) (a b : tensor A) : result (tensor A) :=
  if negb (rank a =? rank b) then Err (DimMismatch "cat")
  else if rank a <=? d then Err (IndexOutOfRange "cat")
  else if negb (shape_eqb (remove_at d (shape a)) (remove_at d (shape b)))
  then Err (ShapeMismatch "cat")
  else Ok (build (replace_at d (size a d + size b d) (shape a))
                 (fun idx =>
                    let i := nth d idx 0 in
                    if i <? size a d then get a idx
                    else get b (replace_at d (i - size a d) idx))).
End Ops.

(** ** Broadcasting *)

Definition bdim (x y : nat) : option nat :=
  if x =? y then Some x
  else if x =? 1 then Some y
  else if y =? 1 then Some x
  else None.

Fixpoint bzip (a b : list nat) : option (list nat) :=
  match a, b with
  | [], [] => Some []
  | x :: a', y :: b' =>
      match bdim x y, bzip a' b' with
      | Some d, Some r => Some (d :: r)
      | _, _ => None
      end
  | _, _ => None
  end.

Definition broadcast_shapes (a b : list nat) : option (list nat) :=
  let n := Nat.max (length a) (length b) in
  bzip (pad n a) (pad n b).

(** The index into an operand of shape [sh] that an index [idx] of the
    broadcast result reads: leading result dimensions are dropped and
    dimensions of size one are read at 0. *)
Definition bsel (d i : nat) : nat := if d =? 1 then 0 else i.

Definition bidx (sh idx : list nat) : list nat :=
  map2 bsel sh (skipn (length idx - length sh) idx).

Definition bget {A : Type} `{Dflt A} (t : tensor A) (idx : list nat) : A :=
  get t (bidx (shape t) idx).

(** Elementwise binary operation with broadcasting ([a + b], [a - b],
    [a * b], [torch.minimum(a, b)], [a <= b], ...). *)
Definition tzip {A B C : Type} `{Dflt A} `{Dflt B} (op : string) (f : A -> B -> C)
    (a : tensor A) (b : tensor B) : result (tensor C) :=
  match broadcast_shapes (shape a) (shape b) with
  | Some sh => Ok (build sh (fun idx => f (bget a idx) (bget b idx)))
  | None => Err (ShapeMismatch op)
  end.

(** [torch.where(c, x, y)]. *)
Definition twhere {A : Type} `{Dflt A} (c : tensor bool) (x y : tensor A) : result (tensor A) :=
  match broadcast_shapes (shape x) (shape y) with
  | Some sxy =>
      match broadcast_shapes (shape c) sxy with
      | Some sh =>
          Ok (build sh (fun idx => if bget c idx then bget x idx else bget y idx))
      | None => Err (ShapeMismatch "where")
      end
  | None => Err (ShapeMismatch "where")
  end.

(** [t.expand(sizes)]: [-1] keeps a dimension, a dimension of size one may
    be enlarged, and new dimensions may be added in front. *)
Fixpoint expand_zip (sh : list nat) (sizes : list Z) : option (list nat) :=
  match sh, sizes with
  | [], [] => Some []
  | d :: sh', z :: sizes' =>
      match expand_zip sh' sizes' with
      | Some r =>
          if (z =? -1)%Z then Some (d :: r)
          else if (z <? 0)%Z then None
          else if (Z.to_nat z =? d) || (d =? 1) then Some (Z.to_nat z :: r)
          else None
      | None => None
      end
  | _, _ => None
  end.

Definition expand {A : Type} `{Dflt A} (t : tensor A) (sizes : list Z) : result (tensor A) :=
  let k := length sizes - rank t in
  if length sizes <? rank t then Err (DimMismatch "expand")
  else if existsb (fun z => z <? 0)%Z (firstn k sizes) then Err (ValueError "expand")
  else match expand_zip (shape t) (skipn k sizes) with
       | Some r =>
           Ok (build (map Z.to_nat (firstn k sizes) ++ r) (fun idx => bget t idx))
       | None => Err (ShapeMismatch "expand")
       end.

(** ** Reductions over rationals *)

Definition tsum (d : nat) (t : tensor Q) : result (tensor Q) :=
  if rank t <=? d then Err (IndexOutOfRange "sum") else Ok (reduce Qsum d t).

(** The mean over an empty dimension divides by zero; the rational model
    returns [0/0 = 0] where floating point gives NaN. *)
Definition tmean (d : nat) (t : tensor Q) : result (tensor Q) :=
  if rank t <=? d then Err (IndexOutOfRange "mean") else Ok (reduce Qmean d t).

Definition tmean_keep (d : nat) (t : tensor Q) : result (tensor Q) :=
  if rank t <=? d then Err (IndexOutOfRange "mean") else Ok (reduce_keep Qmean d t).

(** [torch.max(t, dim=d, keepdim=True)[0]]. *)
Definition tmax_keep (d : nat) (t : tensor Q) : result (tensor Q) :=
  if rank t <=? d then Err (IndexOutOfRange "max")
  else if size t d =? 0 then Err (EmptyReduction "max")
  else Ok (reduce_keep list_max d t).

(** [torch.argmax(t, dim=d)]. *)
Definition targmax (d : nat) (t : tensor Q) : result (tensor Z) :=
  if rank t <=? d then Err (IndexOutOfRange "argmax")
  else if size t d =? 0 then Err (EmptyReduction "argmax")
  else Ok (reduce (fun l => Z.of_nat (list_argmax l)) d t).

(** [torch.sum(t)] over all entries, a zero-dimensional tensor. *)
Definition tsum_all (t : tensor Q) : tensor Q := mkT [] [Qsum (data t)].

(** [np.array([...])] of a list of equally shaped arrays. *)
Definition stack {A : Type} (l : list (tensor A)) : result (tensor A) :=
  match l with
  | [] => Ok (mkT [0] [])
  | t :: l' =>
      if forallb (fun u => shape_eqb (shape u) (shape t)) l'
      then Ok (mkT (length l :: shape t) (concat (map (@data A) l)))
      else Err (ShapeMismatch "array")
  end.

(** ** The network: [Agent] *)

(** [torch.nn.LeakyReLU()] with its default negative slope 0.01. *)
Definition leaky_relu (x : Q) : Q :=
  if Qle_bool 0 x then x else ((1 # 100) * x)%Q.

Section Model.

(** Numeric primitives and layers that live outside this file:
    [cospi x] stands for [cos(pi * x)]; [rng] is the state of the device
    random generator and [uniform_ g n] the [n] draws of
    [FloatTensor(n, 1).uniform_(0, 1)] from it; [NoisyLinear] is the layer
    of the [noisy_linear] module, with its [forward] and [reset_noise]. *)
Variable cospi : Q -> Q.
Variable rng : Type.
Variable uniform_ : rng -> nat -> list Q * rng.
Variable NoisyLinear : Type.
Variable NoisyLinear_forward : NoisyLinear -> tensor Q -> result (tensor Q).
Variable NoisyLinear_reset_noise : NoisyLinear -> rng -> NoisyLinear * rng.

(** Python's [random] module: its generator state, [random.random()] and
    [random.randrange(a, b)]. *)
Variable pyrng : Type.
Variable random_random : pyrng -> Q * pyrng.
Variable random_randrange : pyrng -> Z -> Z -> result (Z * pyrng).

(** The deterministic sub-networks ([torch.nn.Sequential] stacks and the
    linear quantile projector) are carried as the functions they compute. *)
Record Agent : Type := mkAgent {
  img_head : tensor Q -> result (tensor Q);
  float_feature_extractor : tensor Q -> result (tensor Q);
  A_head : NoisyLinear * NoisyLinear;      (* A_head[0], A_head[2] *)
  V_head : NoisyLinear * NoisyLinear;      (* V_head[0], V_head[2] *)
  iqn_fc : tensor Q -> result (tensor Q);
  iqn_embedding_dimension : Z;
  n_actions : Z;
  float_inputs_mean : tensor Q;
  float_inputs_std : tensor Q
}.

(** A head: [Sequential(NoisyLinear, LeakyReLU, NoisyLinear)]. *)
Definition head_forward (h : NoisyLinear * NoisyLinear) (x : tensor Q) : result (tensor Q) :=
  y <- NoisyLinear_forward (fst h) x ;;
  NoisyLinear_forward (snd h) (tmap leaky_relu y).

(** [torch.arange(1, d + 1, 1)]. *)
Definition arange1 (d : Z) : tensor Q :=
  of_list (map (fun i => inject_Z (Z.of_nat i)) (seq 1 (Z.to_nat d))).

(** The quantile fractions of a pass: the supplied ones, or fresh draws. *)
Definition sample_tau (img : tensor Q) (num_quantiles : Z) (tau : option (tensor Q)) (g : rng)
  : result (tensor Q * rng) :=
  match tau with
  | Some tau => Ok (tau, g)
  | None =>
      let n := (Z.of_nat (size img 0) * num_quantiles)%Z in
      if (n <? 0)%Z then Err (ValueError "FloatTensor")
      else let (xs, g') := uniform_ g (Z.to_nat n) in
           Ok (mkT [Z.to_nat n; 1] xs, g')
  end.

(** Lines 78-98: the state embedding gated by the quantile embedding. *)
Definition gated_embedding (self : Agent) (img float_inputs : tensor Q)
    (num_quantiles : Z) (tau : option (tensor Q)) (g : rng)
  : result (tensor Q * tensor Q * rng) :=
  img_outputs <- img_head self (tmap (fun x => (x - 128) / 128)%Q img) ;;
  centred <- tzip "sub" Qminus float_inputs (float_inputs_mean self) ;;
  scaled <- tzip "div" Qdiv centred (float_inputs_std self) ;;
  float_outputs <- float_feature_extractor self scaled ;;
  concat <- cat 1 img_outputs float_outputs ;;
  '(tau, g) <- sample_tau img num_quantiles tau g ;;
  quantile_net <- expand tau [(-1)%Z; iqn_embedding_dimension self] ;;
  quantile_net <- tzip "mul" (fun i x => cospi (i * x)%Q)
                    (arange1 (iqn_embedding_dimension self)) quantile_net ;;
  quantile_net <- iqn_fc self quantile_net ;;
  let quantile_net := tmap leaky_relu quantile_net in
  concat <- trepeat concat [num_quantiles; 1%Z] ;;
  concat <- tzip "mul" Qmult concat quantile_net ;;
  Ok (concat, tau, g).

(** Line 103: [Q = V + A - A.mean(dim=-1, keepdim=True)]. *)
Definition dueling (A V : tensor Q) : result (tensor Q) :=
  VA <- tzip "add" Qplus V A ;;
  d <- norm_dim "mean" (rank A) (-1) ;;
  Amean <- tmean_keep d A ;;
  tzip "sub" Qminus VA Amean.

Definition forward (self : Agent) (img float_inputs : tensor Q)
    (num_quantiles : Z) (tau : option (tensor Q)) (g : rng)
  : result (tensor Q * tensor Q * rng) :=
  '(concat, tau, g) <- gated_embedding self img float_inputs num_quantiles tau g ;;
  A <- head_forward (A_head self) concat ;;
  V <- head_forward (V_head self) concat ;;
  Q <- dueling A V ;;
  Ok (Q, tau, g).

Definition head_reset_noise (h : NoisyLinear * NoisyLinear) (g : rng)
  : (NoisyLinear * NoisyLinear) * rng :=
  let (l0, g) := NoisyLinear_reset_noise (fst h) g in
  let (l2, g) := NoisyLinear_reset_noise (snd h) g in
  ((l0, l2), g).

Definition reset_noise (self : Agent) (g : rng) : Agent * rng :=
  let (a, g) := head_reset_noise (A_head self) g in
  let (v, g) := head_reset_noise (V_head self) g in
  (mkAgent (img_head self) (float_feature_extractor self) a v (iqn_fc self)
           (iqn_embedding_dimension self) (n_actions self)
           (float_inputs_mean self) (float_inputs_std self), g).

(** ** The trainer *)

Record Trainer : Type := mkTrainer {
  model : Agent;
  model2 : Agent;
  batch_size : Z;
  iqn_k : Z;
  iqn_n : Z;
  iqn_kappa : Q;
  epsilon : Q;
  gamma : Q;
  n_steps : Z;
  AL_alpha : Q
}.

(** [Trainer.__init__] stores its arguments (the optimizer and the
    gradient scaler are opaque collaborators and are left out). *)
Definition Trainer_init (model model2 : Agent) (batch_size iqn_k iqn_n : Z)
    (iqn_kappa epsilon gamma : Q) (n_steps : Z) (AL_alpha : Q) : result Trainer :=
  Ok (mkTrainer model model2 batch_size iqn_k iqn_n iqn_kappa epsilon gamma n_steps AL_alpha).

(** One replayed transition. *)
Record Transition : Type := mkTransition {
  state_img : tensor Q;
  state_float : tensor Q;
  action : Z;
  reward : Q;
  done : bool;
  next_state_img : tensor Q;
  next_state_float : tensor Q
}.

(** Lines 180-184: the rewards (or the done flags) of the batch as a column,
    repeated once per quantile: a, b, c, d, a, b, c, d, ... *)
Definition replicate_column {A : Type} `{Dflt A} (iqn_n : Z) (xs : tensor A)
  : result (tensor A) :=
  col <- reshape xs [(-1)%Z; 1%Z] ;;
  trepeat col [iqn_n; 1%Z].

(** Line 185: the actions of the batch, likewise. *)
Definition replicate_actions (iqn_n : Z) (actions : tensor Z) : result (tensor Z) :=
  col <- slice_none 1 0 actions ;;
  trepeat col [iqn_n; 1%Z].

(** Lines 189-199: the greedy next action of the online network. *)
Definition select_action (iqn_n batch_size n_actions : Z) (q_stpo_alla : tensor Q)
  : result (tensor Z) :=
  q_stpo_alla <- reshape q_stpo_alla [iqn_n; batch_size; n_actions] ;;
  q_stpo_alla <- tmean 0 q_stpo_alla ;;
  a_tpo <- targmax 1 q_stpo_alla ;;
  a_tpo <- slice_none 1 0 a_tpo ;;
  trepeat a_tpo [iqn_n; 1%Z].

(** Lines 209-215: value and taken-action value of the next state. *)
Definition pal_next (iqn_n batch_size n_actions : Z) (q_stpot_alla : tensor Q)
    (index : tensor Z) : result (tensor Q * tensor Q) :=
  q_stpot_alla <- reshape q_stpot_alla [iqn_n; batch_size; n_actions] ;;
  q_stpot_alla <- tmean 0 q_stpot_alla ;;
  v_stpot <- tmax_keep 1 q_stpot_alla ;;
  q_stpot_a <- gather q_stpot_alla 1 index ;;
  Ok (v_stpot, q_stpot_a).

(** Lines 226-232: value and taken-action value of the current state. *)
Definition pal_cur (iqn_n batch_size n_actions : Z) (outputs : tensor Q)
    (index : tensor Z) : result (tensor Q * tensor Q) :=
  q_s_alla <- reshape outputs [iqn_n; batch_size; n_actions] ;;
  q_s_alla <- tmean 0 q_s_alla ;;
  q_s_a <- gather q_s_alla 1 index ;;
  v_s <- tmax_keep 1 q_s_alla ;;
  Ok (v_s, q_s_a).

(** A magnitude of [2^1024 - 2^970] or more lies beyond the doubles: it
    rounds to infinity. *)
Definition double_overflow : Z := (2 ^ 1024 - 2 ^ 970)%Z.

(** Python's [pow(x, n)] for a float [x] and an int [n] (line 236).  The
    exponent is first converted to a float, which raises [OverflowError]
    when it is too large; [0.0] to a negative power raises
    [ZeroDivisionError]; a result out of the range of the doubles raises
    [OverflowError].  The power itself is exact, as all arithmetic is here. *)
Definition pow (x : Q) (n : Z) : result Q :=
  if (double_overflow <=? Z.abs n)%Z then Err (OverflowError "float")
  else if Qeq_bool x 0 && (n <? 0)%Z then Err (ZeroDivisionError "pow")
  else
    let p := Qpower x n in
    if Qle_bool (inject_Z double_overflow) (Qabs p) then Err (OverflowError "pow")
    else Ok p.

(** Line 236, left operand: the bootstrap target.  [pow(self.gamma,
    self.n_steps)] is evaluated before any of the tensor operations of the
    line. *)
Definition bootstrap (gamma : Q) (n_steps : Z) (done : tensor bool)
    (rewards q_stpot_atpot : tensor Q) : result (tensor Q) :=
  discount <- pow gamma n_steps ;;
  boot <- tzip "add" Qplus rewards
            (tmap (fun q => discount * q)%Q q_stpot_atpot) ;;
  twhere done rewards boot.

(** The quantile-averaged values of lines 209-211 and 226-228: per batch item
    and action, the mean over the [n] quantile samples of a
    (n * b, a) tensor of quantile values. *)
Definition quantile_average (n b a : nat) (q_alla : tensor Q) : tensor Q :=
  reduce Qmean 0 (mkT [n; b; a] (data q_alla)).

(** The advantage gap that PAL subtracts for batch item [i]: the smaller of
    [v_s - q_s_a] and [v_stpot - q_stpot_a]. *)
Definition pal_gap (v_s q_s_a v_stpot q_stpot_a : tensor Q) (i : nat) : Q :=
  qmin (v_s.[i, 0] - q_s_a.[i, 0])%Q (v_stpot.[i, 0] - q_stpot_a.[i, 0])%Q.

(** Line 236, right operand: the PAL correction. *)
Definition pal_correction (AL_alpha : Q) (iqn_n : Z)
    (v_s q_s_a v_stpot q_stpot_a : tensor Q) : result (tensor Q) :=
  gap_s <- tzip "sub" Qminus v_s q_s_a ;;
  gap_stpot <- tzip "sub" Qminus v_stpot q_stpot_a ;;
  m <- tzip "minimum" qmin gap_s gap_stpot ;;
  m <- trepeat m [iqn_n; 1%Z] ;;
  Ok (tmap (fun x => AL_alpha * x)%Q m).

(** Lines 236-240: the training target, of shape (batch_size, iqn_n, 1). *)
Definition build_target (gamma : Q) (n_steps : Z) (AL_alpha : Q) (iqn_n batch_size : Z)
    (done : tensor bool) (rewards q_stpot_atpot v_s q_s_a v_stpot q_stpot_a : tensor Q)
  : result (tensor Q) :=
  base <- bootstrap gamma n_steps done rewards q_stpot_atpot ;;
  corr <- pal_correction AL_alpha iqn_n v_s q_s_a v_stpot q_stpot_a ;;
  outputs_target <- tzip "sub" Qminus base corr ;;
  outputs_target <- reshape outputs_target [iqn_n; batch_size; 1%Z] ;;
  transpose 0 1 outputs_target.

(** Lines 245-249: the prediction at the taken action, (batch_size, iqn_n, 1). *)
Definition align_prediction (iqn_n batch_size : Z) (outputs : tensor Q)
    (actions_n : tensor Z) : result (tensor Q) :=
  outputs <- gather outputs 1 actions_n ;;
  outputs <- reshape outputs [iqn_n; batch_size; 1%Z] ;;
  transpose 0 1 outputs.

(** Line 251: the cross-quantile error. *)
Definition td_error (outputs_target outputs : tensor Q) : result (tensor Q) :=
  t <- slice_none 2 1 outputs_target ;;
  o <- slice_none 1 2 outputs ;;
  tzip "sub" Qminus t o.

(** Lines 254-258: Huber loss with threshold [kappa]. *)
Definition huber (kappa : Q) (TD_Error : tensor Q) : result (tensor Q) :=
  twhere (tmap (fun x => Qle_bool (Qabs x) kappa) TD_Error)
         (tmap (fun x => (1 # 2) * x ^ 2)%Q TD_Error)
         (tmap (fun x => kappa * (Qabs x - (1 # 2) * kappa))%Q TD_Error).

(** The same two steps on one scalar error [td] at quantile fraction [tau]:
    the Huber loss, weighted by [1 - tau] or [tau] and divided by [kappa]. *)
Definition pinball (kappa tau td : Q) : Q :=
  ((if Qlt_bool td 0 then 1 - tau else tau)
   * (if Qle_bool (Qabs td) kappa then (1 # 2) * td ^ 2
      else kappa * (Qabs td - (1 # 2) * kappa))
   / kappa)%Q.

(** The loss of one pair: target quantile [i] against predicted quantile
    [j] of batch item [bi], at the fraction of the predicted quantile. *)
Definition pair_loss (kappa : Q) (b : nat) (outputs_target outputs tau : tensor Q)
    (bi i j : nat) : Q :=
  pinball kappa (tau.[j * b + bi, 0])
          (outputs_target.[bi, i, 0] - outputs.[bi, j, 0])%Q.

(** Lines 259-261: the quantile fractions laid out against the error. *)
Definition tau_grid (iqn_n batch_size : Z) (tau : tensor Q) : result (tensor Q) :=
  tau <- reshape tau [iqn_n; batch_size; 1%Z] ;;
  tau <- transpose 0 1 tau ;;
  tau <- slice_none 1 2 tau ;;
  expand tau [(-1)%Z; iqn_n; (-1)%Z; (-1)%Z].

(** Lines 251-266: the loss of every batch item. *)
Definition quantile_loss (kappa : Q) (iqn_n batch_size : Z)
    (outputs_target outputs tau : tensor Q) : result (tensor Q) :=
  TD_Error <- td_error outputs_target outputs ;;
  loss <- huber kappa TD_Error ;;
  tau <- tau_grid iqn_n batch_size tau ;;
  w <- twhere (tmap (fun x => Qlt_bool x 0) TD_Error) (tmap (fun t => 1 - t)%Q tau) tau ;;
  loss <- tzip "mul" Qmult w loss ;;
  let loss := tmap (fun x => x / kappa)%Q loss in
  loss <- tsum 2 loss ;;
  loss <- tmean 1 loss ;;
  select 1 0 loss.

(** What a training step leaves behind: the values it returns and reports,
    and the local tensors the statements below speak about. *)
Record step : Type := mkStep {
  st_tau : tensor Q;             (* quantile fractions of the target pass *)
  st_outputs : tensor Q;         (* online prediction, all actions *)
  st_outputs_target : tensor Q;  (* (batch_size, iqn_n, 1) *)
  st_loss : tensor Q;            (* per-item loss, the reported priorities *)
  st_total_loss : tensor Q;
  st_mean_q_value : tensor Q;
  st_trainer : Trainer;          (* the networks with their new noise *)
  st_rng : rng
}.

Definition with_models (self : Trainer) (m m2 : Agent) : Trainer :=
  mkTrainer m m2 (batch_size self) (iqn_k self) (iqn_n self) (iqn_kappa self)
            (epsilon self) (gamma self) (n_steps self) (AL_alpha self).

(** [train_on_batch], up to the backward pass; [batch] and [is_weights] are
    what [buffer.sample] returned.  The index tensor handed to the two PAL
    gathers (lines 215 and 230) is [pal_index actions]. *)
Definition train_on_batch_body (pal_index : tensor Z -> tensor Z)
    (self : Trainer) (batch : list Transition) (is_weights : list Q) (g : rng)
  : result step :=
  let n := iqn_n self in
  let b := batch_size self in
  state_img_tensor <- stack (map state_img batch) ;;
  state_float_tensor <- stack (map state_float batch) ;;
  let actions := of_list (map action batch) in
  let rewards := of_list (map reward batch) in
  let dones := of_list (map done batch) in
  next_state_img_tensor <- stack (map next_state_img batch) ;;
  next_state_float_tensor <- stack (map next_state_float batch) ;;
  let is_weights := of_list is_weights in
  rewards <- replicate_column n rewards ;;
  dones <- replicate_column n dones ;;
  actions_n <- replicate_actions n actions ;;
  let (m, g) := reset_noise (model self) g in
  '(q_stpo_alla, _, g) <- forward m next_state_img_tensor next_state_float_tensor n None g ;;
  a_tpo <- select_action n b (n_actions m) q_stpo_alla ;;
  let (m2, g) := reset_noise (model2 self) g in
  '(q_stpot_alla, tau, g) <- forward m2 next_state_img_tensor next_state_float_tensor n None g ;;
  q_stpot_atpot <- gather q_stpot_alla 1 a_tpo ;;
  '(v_stpot, q_stpot_a) <- pal_next n b (n_actions m) q_stpot_alla (pal_index actions) ;;
  let (m, g) := reset_noise m g in
  '(outputs, _, g) <- forward m state_img_tensor state_float_tensor n (Some tau) g ;;
  '(v_s, q_s_a) <- pal_cur n b (n_actions m) outputs (pal_index actions) ;;
  outputs_target <- build_target (gamma self) (n_steps self) (AL_alpha self) n b
                      dones rewards q_stpot_atpot v_s q_s_a v_stpot q_stpot_a ;;
  mean_q_value <- tmean 0 outputs ;;
  prediction <- align_prediction n b outputs actions_n ;;
  loss <- quantile_loss (iqn_kappa self) n b outputs_target prediction tau ;;
  weighted <- tzip "mul" Qmult is_weights loss ;;
  let total_loss := tsum_all weighted in
  Ok (mkStep tau outputs outputs_target loss total_loss mean_q_value
             (with_models self m m2) g).

(** [train_on_batch] as written: the PAL gathers receive [actions] itself. *)
Definition train_on_batch (self : Trainer) (batch : list Transition)
    (is_weights : list Q) (g : rng) : result step :=
  train_on_batch_body (fun actions => actions) self batch is_weights g.

(** [get_exploration_action]: the chosen action, whether it is greedy, and
    the largest quantile-averaged action value. *)
Definition get_exploration_action (self : Trainer) (img_inputs float_inputs : tensor Q)
    (g : rng) (pg : pyrng) : result (Z * bool * Q * Trainer * rng * pyrng) :=
  let state_img_tensor := unsqueeze 0 img_inputs in
  let state_float_tensor := unsqueeze 0 float_inputs in
  let (m, g) := if Qlt_bool 0 (epsilon self)
                then reset_noise (model self) g
                else (model self, g) in
  '(q, _, g) <- forward m state_img_tensor state_float_tensor (iqn_k self) None g ;;
  q_values <- tmean 0 q ;;
  let self := with_models self m (model2 self) in
  let (u, pg) := random_random pg in
  if Qlt_bool u (epsilon self) then
    '(a, pg) <- random_randrange pg 0 (n_actions m) ;;
    if numel (shape q_values) =? 0 then Err (ValueError "max")
    else Ok (a, false, list_max (data q_values), self, g, pg)
  else
    if numel (shape q_values) =? 0 then Err (ValueError "argmax")
    else Ok (Z.of_nat (list_argmax (data q_values)), true,
             list_max (data q_values), self, g, pg).

End Model.

(** ** A small concrete instance

    A network with one harmonic, two actions and linear sub-networks, a
    generator that cycles through the fractions 0, 1/2 and 1/3, and a
    cosine that is exact at the multiples of 1/2 and 1/3, the only points
    where it is evaluated. *)

Module Toy.

(** [cos(pi * x)] at the rational points where it is rational. *)
Definition cospi (x : Q) : Q :=
  let r := Qred (x - inject_Z (2 * Qfloor (x / 2)))%Q in
  match Qnum r, Qden r with
  | 0%Z, _ => 1%Q
  | 1%Z, 2%positive => 0%Q
  | 1%Z, 1%positive => (-1)%Q
  | 3%Z, 2%positive => 0%Q
  | 1%Z, 3%positive => (1 # 2)%Q
  | 2%Z, 3%positive => (- (1 # 2))%Q
  | 4%Z, 3%positive => (- (1 # 2))%Q
  | 5%Z, 3%positive => (1 # 2)%Q
  | _, _ => 0%Q
  end.

(** The generator state counts the draws made so far. *)
Definition rng : Type := nat.
Definition draw (k : nat) : Q := nth (k mod 3) [0; 1 # 2; 1 # 3]%Q 0%Q.
Definition uniform_ (g : rng) (n : nat) : list Q * rng :=
  (map draw (seq g n), g + n).

(** [x @ W^T + b] for [x] of shape (rows, k), [W] of shape (o, k) and [b]
    of shape (o,). *)
Definition linear (W b : tensor Q) (x : tensor Q) : result (tensor Q) :=
  if negb ((rank x =? 2) && (rank W =? 2) && (rank b =? 1)) then Err (DimMismatch "linear")
  else if negb ((size x 1 =? size W 1) && (size b 0 =? size W 0)) then Err (ShapeMismatch "linear")
  else Ok (build [size x 0; size W 0]
             (fun idx =>
                let r := nth 0 idx 0 in
                let o := nth 1 idx 0 in
                (Qsum (map (fun j => get x [r; j] * get W [o; j])%Q (seq 0 (size x 1)))
                 + get b [o])%Q)).

(** A noisy layer: mean weights, noise scales and the sampled noise. *)
Record NoisyLinear : Type := mkNL {
  weight_mu : tensor Q;
  weight_sigma : tensor Q;
  weight_epsilon : tensor Q;
  bias : tensor Q
}.

Definition NoisyLinear_forward (l : NoisyLinear) (x : tensor Q) : result (tensor Q) :=
  noise <- tzip "mul" Qmult (weight_sigma l) (weight_epsilon l) ;;
  W <- tzip "add" Qplus (weight_mu l) noise ;;
  linear W (bias l) x.

Definition NoisyLinear_reset_noise (l : NoisyLinear) (g : rng) : NoisyLinear * rng :=
  let (xs, g') := uniform_ g (numel (shape (weight_mu l))) in
  (mkNL (weight_mu l) (weight_sigma l) (mkT (shape (weight_mu l)) xs) (bias l), g').

Definition pyrng : Type := nat.
Definition random_random (pg : pyrng) : Q * pyrng := (draw pg, S pg).
Definition random_randrange (pg : pyrng) (a b : Z) : result (Z * pyrng) :=
  if (a <? b)%Z then Ok ((a + Z.of_nat pg mod (b - a))%Z, S pg)
  else Err (ValueError "randrange").

Definition mat (r c : nat) (l : list Q) : tensor Q := mkT [r; c] l.
Definition vec (l : list Q) : tensor Q := of_list l.

Definition nl (o k : nat) (w s b : list Q) : NoisyLinear :=
  mkNL (mat o k w) (mat o k s) (mat o k (repeat 0%Q (o * k))) (vec b).

(** Images are 1x1, there is one numeric feature; both encoders have width
    one, so the state embedding has width two. *)
Definition flatten (x : tensor Q) : result (tensor Q) :=
  reshape x [Z.of_nat (size x 0); (-1)%Z].

Definition agent : Agent NoisyLinear :=
  mkAgent
    (fun x => flatten x)
    (fun x => linear (mat 1 1 [1%Q]) (vec [1%Q]) x)
    (nl 2 2 [1; 0; 0; 1]%Q [0; 0; 0; 0]%Q [0; 0]%Q,
     nl 2 2 [1; 0; 0; 1]%Q [0; 0; 0; 0]%Q [0; 0]%Q)
    (nl 2 2 [1; 0; 0; 1]%Q [0; 0; 0; 0]%Q [0; 0]%Q,
     nl 1 2 [1; 1]%Q [1; 0]%Q [0]%Q)
    (fun x => linear (mat 2 1 [1; 2]%Q) (vec [1; 0]%Q) x)
    1 2 (vec [0%Q]) (vec [1%Q]).

(** batch_size 2, iqn_k 2, iqn_n 2, kappa 1, epsilon 1/2, gamma 9/10,
    n_steps 3, AL_alpha 1/2. *)
Definition trainer : Trainer NoisyLinear :=
  mkTrainer agent agent 2 2 2 1 (1 # 2) (9 # 10) 3 (1 # 2).

(** The same with batch_size 1. *)
Definition trainer1 : Trainer NoisyLinear :=
  mkTrainer agent agent 1 2 2 1 (1 # 2) (9 # 10) 3 (1 # 2).

(** Evaluation: epsilon 0, one quantile per action selection. *)
Definition evaluator : Trainer NoisyLinear :=
  mkTrainer agent agent 2 1 2 1 0 (9 # 10) 3 (1 # 2).

Definition img (v : Q) : tensor Q := mkT [1; 1; 1] [v].
Definition feat (v : Q) : tensor Q := vec [v].

Definition batch : list Transition :=
  [ mkTransition (img 256) (feat 1) 1 1 false (img 384) (feat 2);
    mkTransition (img 0) (feat 3) 0 2 true (img 128) (feat 1) ].

Definition batch1 : list Transition :=
  [ mkTransition (img 256) (feat 1) 1 1 false (img 384) (feat 2) ].

(** The index the comments of lines 216 and 231 have in mind: [actions] as
    a column. *)
Definition column (actions : tensor Z) : tensor Z := unsqueeze 1 actions.

(** Tensors for two batch items and two quantiles. *)
Definition targets : tensor Q := mkT [2; 2; 1] [1; 2; 3; 4]%Q.
Definition predictions : tensor Q := mkT [2; 2; 1] [2; 2; 2; 5]%Q.
Definition fractions : tensor Q := mkT [4; 1] [1 # 4; 1 # 2; 3 # 4; 1 # 3]%Q.
Definition rewards : list Q := [1; 2]%Q.
Definition dones : list bool := [false; true].
Definition q_next_at : tensor Q := mkT [4; 1] [3; 1; 4; 1]%Q.
Definition q_cur_alla : tensor Q := mkT [4; 2] [1; 2; 3; 1; 3; 0; 1; 5]%Q.
Definition q_next_alla : tensor Q := mkT [4; 2] [0; 1; 2; 2; 4; 1; 0; 6]%Q.
Definition taken : tensor Z := mkT [2; 1] [1; 0]%Z.
Definition v_cur : tensor Q := mkT [2; 1] [3; 4]%Q.
Definition q_cur_taken : tensor Q := mkT [2; 1] [2; 4]%Q.
Definition v_next : tensor Q := mkT [2; 1] [5; 1]%Q.
Definition q_next_taken : tensor Q := mkT [2; 1] [4; 0]%Q.

End Toy.

(** * Properties *)

Unset Implicit Arguments.

(** ** Scalars *)

Lemma Qlt_bool_iff (x y : Q) : Qlt_bool x y = true <-> (x < y)%Q.
Proof.
  unfold Qlt_bool. rewrite negb_true_iff.
  split; intros Hxy.
  - apply Qnot_le_lt. intros Hle. apply Qle_bool_iff in Hle. congruence.
  - destruct (Qle_bool y x) eqn:E; [|reflexivity].
    apply Qle_bool_iff in E. exfalso. apply (Qlt_not_le _ _ Hxy E).
Qed.

Lemma Qlt_bool_false_iff (x y : Q) : Qlt_bool x y = false <-> (y <= x)%Q.
Proof.
  unfold Qlt_bool. rewrite negb_false_iff. apply Qle_bool_iff.
Qed.

Lemma qmin_spec (x y : Q) : (qmin x y <= x)%Q /\ (qmin x y <= y)%Q /\ (qmin x y = x \/ qmin x y = y).
Proof.
  unfold qmin. destruct (Qle_bool x y) eqn:E.
  - apply Qle_bool_iff in E. split; [lra|split; [lra|now left]].
  - assert (Hlt : (y < x)%Q) by (apply Qlt_bool_iff; unfold Qlt_bool; now rewrite E).
    split; [lra|split; [lra|now right]].
Qed.

Lemma Qsum_app (l1 l2 : list Q) : (Qsum (l1 ++ l2) == Qsum l1 + Qsum l2)%Q.
Proof.
  induction l1 as [|x l1 IH]; simpl.
  - lra.
  - rewrite IH. lra.
Qed.

Lemma Qsum_map_ext (A : Type) (f g : A -> Q) (l : list A) :
  (forall a, In a l -> (f a == g a)%Q) -> (Qsum (map f l) == Qsum (map g l))%Q.
Proof.
  induction l as [|a l IH]; intros Hfg; simpl.
  - reflexivity.
  - rewrite (Hfg a) by now left. rewrite IH; [reflexivity|].
    intros; apply Hfg; now right.
Qed.

Lemma Qsum_map_plus (A : Type) (f g : A -> Q) (l : list A) :
  (Qsum (map (fun a => f a + g a) l) == Qsum (map f l) + Qsum (map g l))%Q.
Proof.
  induction l as [|a l IH]; simpl; [lra|]. rewrite IH. lra.
Qed.

Lemma Qsum_map_scale (A : Type) (c : Q) (f : A -> Q) (l : list A) :
  (Qsum (map (fun a => c * f a) l) == c * Qsum (map f l))%Q.
Proof.
  induction l as [|a l IH]; simpl; [ring|]. rewrite IH. ring.
Qed.

Lemma Qsum_map_const (A : Type) (c : Q) (l : list A) :
  (Qsum (map (fun _ => c) l) == inject_Z (Z.of_nat (length l)) * c)%Q.
Proof.
  induction l as [|a l IH].
  { change (0 == inject_Z 0 * c)%Q. now rewrite Qmult_0_l. }
  cbn [map Qsum fold_right length]. fold (Qsum (map (fun _ : A => c) l)).
  rewrite IH, Nat2Z.inj_succ. unfold Z.succ. rewrite inject_Z_plus. ring.
Qed.

(** Exchange of two finite sums. *)
Lemma Qsum_exchange (A B : Type) (f : A -> B -> Q) (la : list A) (lb : list B) :
  (Qsum (map (fun a => Qsum (map (fun b => f a b) lb)) la)
   == Qsum (map (fun b => Qsum (map (fun a => f a b) la)) lb))%Q.
Proof.
  induction la as [|a la IH]; simpl.
  - induction lb as [|b lb IHb]; simpl; [reflexivity|]. rewrite <- IHb. lra.
  - rewrite IH. rewrite <- Qsum_map_plus. reflexivity.
Qed.

(** ** The maximum of a sequence and where it is attained *)

Lemma argmax_from_spec (l : list Q) : forall (pre : list Q) (best : nat) (bv : Q),
  best < length pre ->
  nth best pre 0%Q = bv ->
  (forall j, j < length pre -> (nth j pre 0 <= bv)%Q) ->
  (forall j, j < best -> (nth j pre 0 < bv)%Q) ->
  let r := argmax_from l (length pre) best bv in
  fst r < length (pre ++ l) /\
  nth (fst r) (pre ++ l) 0%Q = snd r /\
  (forall j, j < length (pre ++ l) -> (nth j (pre ++ l) 0 <= snd r)%Q) /\
  (forall j, j < fst r -> (nth j (pre ++ l) 0 < snd r)%Q).
Proof.
  induction l as [|x l IH]; intros pre best bv Hb Hv Hle Hlt; cbn [argmax_from].
  - rewrite app_nil_r. cbn [fst snd]. auto.
  - assert (Hpre : pre ++ x :: l = (pre ++ [x]) ++ l) by now rewrite <- app_assoc.
    assert (Hlen : S (length pre) = length (pre ++ [x]))
      by (rewrite length_app; simpl; lia).
    destruct (Qlt_bool bv x) eqn:E.
    + apply Qlt_bool_iff in E.
      rewrite Hpre, Hlen. apply IH.
      * rewrite length_app; simpl; lia.
      * rewrite app_nth2 by lia. now rewrite Nat.sub_diag.
      * intros j Hj. rewrite length_app in Hj; simpl in Hj.
        destruct (Nat.eq_dec j (length pre)) as [->|Hne].
        -- rewrite app_nth2 by lia. rewrite Nat.sub_diag. simpl. lra.
        -- rewrite app_nth1 by lia. specialize (Hle j ltac:(lia)). lra.
      * intros j Hj. rewrite app_nth1 by lia. specialize (Hle j Hj). lra.
    + apply Qlt_bool_false_iff in E.
      rewrite Hpre, Hlen. apply IH.
      * rewrite length_app; simpl; lia.
      * rewrite app_nth1 by lia. exact Hv.
      * intros j Hj. rewrite length_app in Hj; simpl in Hj.
        destruct (Nat.eq_dec j (length pre)) as [->|Hne].
        -- rewrite app_nth2 by lia. rewrite Nat.sub_diag. simpl. exact E.
        -- rewrite app_nth1 by lia. apply Hle. lia.
      * intros j Hj. rewrite app_nth1 by lia. now apply Hlt.
Qed.

Lemma list_argmax_spec (l : list Q) :
  l <> [] ->
  list_argmax l < length l /\
  nth (list_argmax l) l 0%Q = list_max l /\
  (forall j, j < length l -> (nth j l 0 <= list_max l)%Q) /\
  (forall j, j < list_argmax l -> (nth j l 0 < list_max l)%Q).
Proof.
  destruct l as [|x l]; [congruence|]. intros _.
  unfold list_argmax, list_max.
  apply (argmax_from_spec l [x] 0 x); simpl; try lia; try reflexivity.
  - intros j Hj. assert (j = 0) by lia. subst. simpl. lra.
Qed.

(** ** The error monad *)

Lemma bind_ok {A B : Type} (m : result A) (k : A -> result B) (r : B) :
  bind m k = Ok r -> exists a, m = Ok a /\ k a = Ok r.
Proof.
  destruct m as [a|e]; simpl; [|discriminate].
  intros Hk. now exists a.
Qed.

Lemma bind_err {A B : Type} (m : result A) (k : A -> result B) (e : error) :
  m = Err e -> bind m k = Err e.
Proof. now intros ->. Qed.

(** Inversion of a successful sequence of steps, one step at a time. *)
Ltac inv_bind H :=
  let a := fresh "a" in
  let E := fresh "E" in
  apply bind_ok in H; destruct H as (a & E & H).

(** The same, replaying the step in the goal. *)
Ltac inv_bind_rw H :=
  let a := fresh "a" in
  let E := fresh "E" in
  apply bind_ok in H; destruct H as (a & E & H); rewrite E; cbn [bind]; clear E.

(** ** Tensor operations *)

Arguments build : simpl never.
Arguments get : simpl never.
Arguments bsel : simpl never.

Lemma tensor_eta {A : Type} (t : tensor A) : mkT (shape t) (data t) = t.
Proof. now destruct t. Qed.

Lemma get_data {A : Type} `{Dflt A} (t : tensor A) (sh idx idx' : list nat) :
  ravel sh idx = ravel (shape t) idx' ->
  get (mkT sh (data t)) idx = get t idx'.
Proof. intros E. unfold get; simpl. now rewrite E. Qed.

Lemma in_range_length (sh idx : list nat) : in_range sh idx -> length idx = length sh.
Proof.
  revert idx; induction sh as [|d sh IH]; intros [|i idx]; simpl; try tauto.
  intros [_ Hr]. now rewrite (IH _ Hr).
Qed.

Lemma bsel_lt (d i : nat) : i < d -> bsel d i = i.
Proof.
  unfold bsel. destruct (Nat.eqb_spec d 1); [lia|reflexivity].
Qed.

Lemma bsel_one (i : nat) : bsel 1 i = 0.
Proof. reflexivity. Qed.

Lemma bsel_bound (d i : nat) : i < d -> bsel d i < d.
Proof. intros Hi. now rewrite bsel_lt. Qed.

Lemma map2_bsel_in_range (sh idx : list nat) : in_range sh idx -> map2 bsel sh idx = idx.
Proof.
  revert idx; induction sh as [|d sh IH]; intros [|i idx]; simpl; try tauto.
  intros [Hi Hr]. now rewrite bsel_lt, IH.
Qed.

Lemma bidx_in_range (sh idx : list nat) : in_range sh idx -> bidx sh idx = idx.
Proof.
  intros Hr. unfold bidx.
  rewrite (in_range_length _ _ Hr), Nat.sub_diag. simpl.
  now apply map2_bsel_in_range.
Qed.

Lemma bget_in_range {A : Type} `{Dflt A} (t : tensor A) (idx : list nat) :
  in_range (shape t) idx -> bget t idx = get t idx.
Proof. intros Hr. unfold bget. now rewrite bidx_in_range. Qed.

Lemma bdim_refl (x : nat) : bdim x x = Some x.
Proof. unfold bdim. now rewrite Nat.eqb_refl. Qed.

Lemma bdim_1_l (y : nat) : bdim 1 y = Some y.
Proof.
  unfold bdim. destruct (Nat.eqb_spec 1 y); [now subst|reflexivity].
Qed.

Lemma bdim_1_r (x : nat) : bdim x 1 = Some x.
Proof.
  unfold bdim. destruct (Nat.eqb_spec x 1); [reflexivity|].
  destruct (Nat.eqb_spec x 1); [lia|reflexivity].
Qed.

Lemma bzip_refl (sh : list nat) : bzip sh sh = Some sh.
Proof.
  induction sh as [|d sh IH]; simpl; [reflexivity|].
  now rewrite bdim_refl, IH.
Qed.

Lemma pad_same (sh : list nat) : pad (length sh) sh = sh.
Proof. unfold pad. now rewrite Nat.sub_diag. Qed.

Lemma broadcast_same (sh : list nat) : broadcast_shapes sh sh = Some sh.
Proof.
  unfold broadcast_shapes. rewrite Nat.max_id, pad_same. apply bzip_refl.
Qed.

Lemma tzip_same {A B C : Type} `{Dflt A} `{Dflt B} (op : string) (f : A -> B -> C)
    (a : tensor A) (b : tensor B) :
  shape b = shape a ->
  tzip op f a b = Ok (build (shape a) (fun idx => f (bget a idx) (bget b idx))).
Proof.
  intros E. unfold tzip. now rewrite E, broadcast_same.
Qed.

Lemma twhere_same {A : Type} `{Dflt A} (c : tensor bool) (x y : tensor A) :
  shape c = shape x -> shape y = shape x ->
  twhere c x y =
  Ok (build (shape x) (fun idx => if bget c idx then bget x idx else bget y idx)).
Proof.
  intros Ec Ey. unfold twhere. now rewrite Ey, broadcast_same, Ec, broadcast_same.
Qed.

Lemma shape_tmap {A B : Type} `{Dflt A} (f : A -> B) (t : tensor A) :
  shape (tmap f t) = shape t.
Proof. reflexivity. Qed.

Lemma get_tmap {A B : Type} `{Dflt A} `{Dflt B} (f : A -> B) (t : tensor A) (idx : list nat) :
  in_range (shape t) idx -> get (tmap f t) idx = f (get t idx).
Proof. intros Hr. unfold tmap. now rewrite get_build. Qed.

(** Reshape to a shape given by non-negative integers. *)
Lemma filter_nonneg_of_nat (sh : list nat) :
  filter (fun z => 0 <=? z)%Z (map Z.of_nat sh) = map Z.of_nat sh.
Proof.
  induction sh as [|d sh IH]; simpl; [reflexivity|].
  rewrite IH. destruct (Z.leb_spec 0 (Z.of_nat d)); [reflexivity|lia].
Qed.

Lemma filter_hole_of_nat (sh : list nat) :
  filter (fun z => z =? -1)%Z (map Z.of_nat sh) = [].
Proof.
  induction sh as [|d sh IH]; simpl; [reflexivity|].
  rewrite IH. destruct (Z.eqb_spec (Z.of_nat d) (-1)); [lia|reflexivity].
Qed.

Lemma existsb_neg_of_nat (c : Z) (sh : list nat) :
  (c <= 0)%Z -> existsb (fun z => z <? c)%Z (map Z.of_nat sh) = false.
Proof.
  intros Hc. induction sh as [|d sh IH]; simpl; [reflexivity|].
  rewrite IH. destruct (Z.ltb_spec (Z.of_nat d) c); [lia|reflexivity].
Qed.

Lemma to_nat_of_nat (sh : list nat) : map Z.to_nat (map Z.of_nat sh) = sh.
Proof.
  induction sh as [|d sh IH]; simpl; [reflexivity|].
  now rewrite Nat2Z.id, IH.
Qed.

Lemma infer_shape_nat (n : nat) (sh : list nat) :
  numel sh = n -> infer_shape n (map Z.of_nat sh) = Ok sh.
Proof.
  intros E. unfold infer_shape.
  rewrite existsb_neg_of_nat by lia.
  rewrite filter_hole_of_nat, filter_nonneg_of_nat, to_nat_of_nat. simpl.
  now rewrite E, Nat.eqb_refl.
Qed.

Lemma reshape_nat {A : Type} (t : tensor A) (sh : list nat) :
  numel sh = numel (shape t) ->
  reshape t (map Z.of_nat sh) = Ok (mkT sh (data t)).
Proof.
  intros E. unfold reshape. now rewrite infer_shape_nat.
Qed.

(** [rewards.reshape(-1, 1)] of a one-dimensional tensor. *)
Lemma reshape_column {A : Type} (l : list A) :
  reshape (of_list l) [(-1)%Z; 1%Z] = Ok (mkT [length l; 1] l).
Proof.
  unfold reshape, infer_shape, of_list. simpl.
  change (fst (Nat.divmod (length l * 1) 0 0 0)) with ((length l * 1) / 1).
  rewrite Nat.div_1_r, Nat.mul_1_r. reflexivity.
Qed.

Lemma trepeat_nat {A : Type} `{Dflt A} (t : tensor A) (rs : list nat) :
  length rs = rank t ->
  trepeat t (map Z.of_nat rs) =
  Ok (build (map2 Nat.mul rs (shape t))
            (fun idx => get t (map2 Nat.modulo idx (shape t)))).
Proof.
  intros E. unfold trepeat.
  rewrite existsb_neg_of_nat by lia.
  rewrite length_map, E, Nat.ltb_irrefl.
  unfold rank. rewrite pad_same, to_nat_of_nat, tensor_eta. reflexivity.
Qed.

Lemma forallb_nth {A : Type} (P : A -> bool) (l : list A) (k : nat) (d : A) :
  forallb P l = true -> P d = true -> P (nth k l d) = true.
Proof.
  intros Hl Hd. destruct (Nat.lt_ge_cases k (length l)) as [Hk|Hk].
  - rewrite forallb_forall in Hl. apply Hl. now apply nth_In.
  - now rewrite nth_overflow.
Qed.

(** A gather along dimension 1 of a matrix: when it is defined, the index
    is a matrix too and every gathered entry is an entry of the same row. *)
Lemma gather_dim1 {A : Type} `{Dflt A} (t : tensor A) (index : tensor Z) (g : tensor A)
    (b a : nat) :
  shape t = [b; a] -> 0 < a ->
  gather t 1 index = Ok g ->
  exists b' c, shape index = [b'; c] /\ shape g = [b'; c] /\ b' <= b /\
    forall i j, i < b' -> j < c ->
      exists k, k < a /\ get g [i; j] = get t [i; k].
Proof.
  intros Hsh Ha. unfold gather, rank, size. rewrite Hsh. simpl.
  destruct (shape index) as [|b' [|c [|e sh']]] eqn:Hi; simpl; try discriminate.
  unfold sizes_le. simpl.
  destruct (Nat.leb_spec b' b) as [Hb|Hb]; simpl; [|discriminate].
  destruct (forallb _ (data index)) eqn:Hall; simpl; [|discriminate].
  intros E. injection E as <-.
  exists b', c. repeat split; auto.
  intros i j Hi' Hj.
  exists (Z.to_nat (get index [i; j])). split.
  - assert (Hb' : ((0 <=? get index [i; j]) && (get index [i; j] <? Z.of_nat a))%Z = true).
    { unfold get. apply (forallb_nth (fun z => (0 <=? z) && (z <? Z.of_nat a))%Z).
      - exact Hall.
      - unfold dflt, Dflt_Z. apply andb_true_iff. split.
        + now apply Z.leb_le.
        + apply Z.ltb_lt. lia. }
    apply andb_true_iff in Hb'. destruct Hb' as [H0 H1].
    apply Z.leb_le in H0. apply Z.ltb_lt in H1. lia.
  - rewrite get_build by (simpl; lia). reflexivity.
Qed.

Lemma gather_dim1_ok {A : Type} `{Dflt A} (t : tensor A) (index : tensor Z) (b a c : nat) :
  shape t = [b; a] -> shape index = [b; c] ->
  forallb (fun z => (0 <=? z) && (z <? Z.of_nat a))%Z (data index) = true ->
  gather t 1 index =
  Ok (build [b; c] (fun idx => get t (replace_at 1 (Z.to_nat (get index idx)) idx))).
Proof.
  intros Hsh Hi Hall. unfold gather, rank, size, sizes_le. rewrite Hsh, Hi. simpl.
  rewrite Nat.leb_refl. simpl. now rewrite Hall.
Qed.

Lemma list_max_ge (f : nat -> Q) (n k : nat) :
  k < n -> (f k <= list_max (map f (seq 0 n)))%Q.
Proof.
  intros Hk.
  assert (Hne : map f (seq 0 n) <> []) by (destruct n; [lia|discriminate]).
  destruct (list_argmax_spec _ Hne) as (_ & _ & Hle & _).
  specialize (Hle k). rewrite length_map, length_seq in Hle.
  rewrite nth_map_seq in Hle by exact Hk. now apply Hle.
Qed.

(** Reading entries of tensors that are given by [build]: shapes known
    from the context are substituted, indices in range are read. *)
Lemma shape_unsqueeze {A : Type} (d : nat) (t : tensor A) :
  shape (unsqueeze d t) = insert_at d 1 (shape t).
Proof. reflexivity. Qed.

Ltac rw_shape :=
  match goal with
  | |- context [shape (build _ _)] => rewrite shape_build
  | |- context [shape (unsqueeze _ _)] => rewrite shape_unsqueeze
  | |- context [shape (tmap _ _)] => rewrite shape_tmap
  | H : shape ?t = _ |- context [shape ?t] => rewrite H
  end.

Ltac in_range_tac := repeat rw_shape; simpl; lia.

Ltac tstep :=
  first
    [ rewrite get_build by in_range_tac
    | rewrite get_tmap by in_range_tac
    | rw_shape
    | rewrite bsel_one
    | rewrite bsel_lt by lia
    | progress (unfold bget, bidx, fibre, size)
    | progress (cbn [length skipn map2 Nat.sub nth replace_at insert_at remove_at
                     swap_at shape data fst snd]) ].

Ltac tsimp := repeat tstep.

(** ** The dueling combination *)

Lemma broadcast_col_l (r n : nat) : broadcast_shapes [r; 1] [r; n] = Some [r; n].
Proof.
  unfold broadcast_shapes, pad. simpl. now rewrite bdim_refl, bdim_1_l.
Qed.

Lemma broadcast_col_r (r n : nat) : broadcast_shapes [r; n] [r; 1] = Some [r; n].
Proof.
  unfold broadcast_shapes, pad. simpl. now rewrite bdim_refl, bdim_1_r.
Qed.

Lemma Qsum_map_minus_const (A : Type) (f : A -> Q) (c : Q) (l : list A) :
  (Qsum (map (fun a => f a - c) l)
   == Qsum (map f l) - inject_Z (Z.of_nat (length l)) * c)%Q.
Proof.
  induction l as [|a l IH].
  - change (0 == 0 - inject_Z 0 * c)%Q. ring.
  - cbn [map Qsum fold_right length].
    fold (Qsum (map (fun a => f a - c) l)%Q). fold (Qsum (map f l)).
    rewrite IH, Nat2Z.inj_succ. unfold Z.succ. rewrite inject_Z_plus. ring.
Qed.

Lemma Qmean_centred (f : nat -> Q) (n : nat) :
  0 < n ->
  (Qmean (map (fun a => f a - Qmean (map f (seq 0 n))) (seq 0 n)) == 0)%Q.
Proof.
  intros Hn. unfold Qmean at 1.
  rewrite Qsum_map_minus_const.
  unfold Qmean. rewrite !length_map, !length_seq.
  assert (Hz : ~ (inject_Z (Z.of_nat n) == 0)%Q).
  { intros E. apply (inject_Z_injective (Z.of_nat n) 0) in E. lia. }
  field. exact Hz.
Qed.

Section Dueling.
Variables (A V : tensor Q) (rows n : nat).
Hypothesis HA : shape A = [rows; n].
Hypothesis HV : shape V = [rows; 1].

Let row_mean (r : nat) : Q := Qmean (map (fun k => get A [r; k]) (seq 0 n)).

Lemma dueling_ok :
  dueling A V =
  Ok (build [rows; n] (fun idx =>
        Qminus (bget (build [rows; n] (fun idx => Qplus (bget V idx) (bget A idx))) idx)
               (bget (build [rows; 1] (fun idx => Qmean (fibre 1 A idx))) idx))).
Proof.
  unfold dueling, tzip, tmean_keep, norm_dim, reduce_keep, rank.
  rewrite HA, HV, broadcast_col_l. simpl.
  now rewrite broadcast_col_r.
Qed.

Lemma dueling_entry (Qv : tensor Q) (r a : nat) :
  dueling A V = Ok Qv -> r < rows -> a < n ->
  get Qv [r; a] = (get V [r; 0%nat] + get A [r; a] - row_mean r)%Q.
Proof.
  rewrite dueling_ok. intros E Hr Ha. injection E as <-.
  tsimp. reflexivity.
Qed.
End Dueling.

Lemma Qmean_map_ext (A : Type) (f g : A -> Q) (l : list A) :
  (forall a, In a l -> (f a == g a)%Q) -> (Qmean (map f l) == Qmean (map g l))%Q.
Proof.
  intros Hfg. unfold Qmean. rewrite !length_map.
  now rewrite (Qsum_map_ext _ f g l Hfg).
Qed.

Section ForwardProperties.
Variable cospi : Q -> Q.
Variable rng : Type.
Variable uniform_ : rng -> nat -> list Q * rng.
Variable NoisyLinear : Type.
Variable NoisyLinear_forward : NoisyLinear -> tensor Q -> result (tensor Q).

#[local] Abbreviation forward' := (forward cospi uniform_ NoisyLinear_forward).
#[local] Abbreviation gated_embedding' := (gated_embedding cospi uniform_).
#[local] Abbreviation head_forward' := (head_forward NoisyLinear_forward).

(** C3. Whatever the input batch, the quantile fractions and the noise: when
    the advantage head yields [n >= 1] action advantages per row and the
    value head one value per row, [forward] returns [Q] with
    [Q = V + (A - mean(A))] on every row (one row per quantile sample and
    batch item), so the mean over the actions of [Q - V] is exactly zero. *)
Theorem forward_dueling_zero_mean
    (self : Agent NoisyLinear) (img float_inputs : tensor Q) (num_quantiles : Z)
    (tau : option (tensor Q)) (g : rng)
    (concat tau' A V : tensor Q) (g' : rng) (rows n : nat) :
  gated_embedding' self img float_inputs num_quantiles tau g = Ok (concat, tau', g') ->
  head_forward' (A_head self) concat = Ok A ->
  head_forward' (V_head self) concat = Ok V ->
  shape A = [rows; n] ->
  shape V = [rows; 1] ->
  0 < n ->
  exists Qv,
    forward' self img float_inputs num_quantiles tau g = Ok (Qv, tau', g') /\
    shape Qv = [rows; n] /\
    forall r, r < rows ->
      (forall a, a < n ->
         (get Qv [r; a] ==
          get V [r; 0%nat]
          + (get A [r; a] - Qmean (map (fun k => get A [r; k]) (seq 0 n))))%Q) /\
      (Qmean (map (fun a => get Qv [r; a] - get V [r; 0%nat]) (seq 0 n)) == 0)%Q.
Proof.
  intros Hemb HAh HVh HA HV Hn.
  pose proof (dueling_ok A V rows n HA HV) as Hd.
  eexists. split; [|split].
  - unfold forward. rewrite Hemb. simpl. rewrite HAh. simpl. rewrite HVh. simpl.
    rewrite Hd. simpl. reflexivity.
  - reflexivity.
  - intros r Hr.
    assert (Hentry : forall a, a < n ->
      get (build [rows; n] (fun idx =>
             Qminus (bget (build [rows; n] (fun idx => Qplus (bget V idx) (bget A idx))) idx)
                    (bget (build [rows; 1] (fun idx => Qmean (fibre 1 A idx))) idx)))
          [r; a]
      = (get V [r; 0%nat] + get A [r; a]
         - Qmean (map (fun k => get A [r; k]) (seq 0 n)))%Q).
    { intros a Ha. now apply (dueling_entry A V rows n HA HV). }
    split.
    + intros a Ha. rewrite (Hentry a Ha). ring.
    + rewrite (Qmean_map_ext _ _
                 (fun a => get A [r; a] - Qmean (map (fun k => get A [r; k]) (seq 0 n)))%Q).
      * now apply Qmean_centred.
      * intros a Hin. apply in_seq in Hin. rewrite (Hentry a) by lia. ring.
Qed.

(** The quantile fractions a pass returns. *)
Lemma forward_tau_inv
    (self : Agent NoisyLinear) (img float_inputs : tensor Q) (num_quantiles : Z)
    (tau : option (tensor Q)) (g : rng) (Qv tau' : tensor Q) (g' : rng) :
  forward' self img float_inputs num_quantiles tau g = Ok (Qv, tau', g') ->
  match tau with
  | Some t => tau' = t /\ g' = g
  | None =>
      exists n, (Z.of_nat (size img 0) * num_quantiles)%Z = Z.of_nat n /\
                tau' = mkT [n; 1] (fst (uniform_ g n)) /\
                g' = snd (uniform_ g n)
  end.
Proof.
  intros H. unfold forward in H.
  inv_bind H. destruct a as [[concat tau1] g1].
  inv_bind H. inv_bind H. inv_bind H.
  injection H as _ <- <-.
  unfold gated_embedding in E.
  do 5 inv_bind E.
  inv_bind E. destruct a7 as [tau2 g2].
  do 5 inv_bind E.
  injection E as _ <- <-.
  destruct tau as [t|]; simpl in E8.
  - injection E8 as <- <-. now split.
  - destruct (Z.ltb_spec (Z.of_nat (size img 0) * num_quantiles) 0) as [Hneg|Hpos];
      [discriminate|].
    destruct (uniform_ g (Z.to_nat (Z.of_nat (size img 0) * num_quantiles)))
      as [xs g3] eqn:Hu.
    injection E8 as <- <-.
    exists (Z.to_nat (Z.of_nat (size img 0) * num_quantiles)).
    rewrite Hu. simpl. split; [lia|now split].
Qed.

(** C10. When [forward] is given quantile fractions it hands back exactly
    those, and draws nothing from the generator; it samples fresh fractions,
    one per batch item and quantile, only when none are given. *)
Theorem forward_returns_supplied_tau
    (self : Agent NoisyLinear) (img float_inputs : tensor Q) (num_quantiles : Z)
    (tau : option (tensor Q)) (g : rng) (Qv tau' : tensor Q) (g' : rng) :
  forward' self img float_inputs num_quantiles tau g = Ok (Qv, tau', g') ->
  match tau with
  | Some t => tau' = t /\ g' = g
  | None =>
      exists n, (Z.of_nat (size img 0) * num_quantiles)%Z = Z.of_nat n /\
                tau' = mkT [n; 1] (fst (uniform_ g n)) /\
                g' = snd (uniform_ g n)
  end.
Proof. apply forward_tau_inv. Qed.

End ForwardProperties.

(** ** Exploration *)

Section Exploration.
Variable cospi : Q -> Q.
Variable rng : Type.
Variable uniform_ : rng -> nat -> list Q * rng.
Variable NoisyLinear : Type.
Variable NoisyLinear_forward : NoisyLinear -> tensor Q -> result (tensor Q).
Variable NoisyLinear_reset_noise : NoisyLinear -> rng -> NoisyLinear * rng.
Variable pyrng : Type.
Variable random_random : pyrng -> Q * pyrng.
Variable random_randrange : pyrng -> Z -> Z -> result (Z * pyrng).

#[local] Abbreviation forward' := (forward cospi uniform_ NoisyLinear_forward).
#[local] Abbreviation reset_noise' := (reset_noise NoisyLinear_reset_noise).
#[local] Abbreviation get_exploration_action' :=
  (get_exploration_action cospi uniform_ NoisyLinear_forward NoisyLinear_reset_noise
     random_random random_randrange).

Lemma n_actions_reset_noise (m : Agent NoisyLinear) (g : rng) :
  n_actions (fst (reset_noise' m g)) = n_actions m.
Proof.
  unfold reset_noise, head_reset_noise.
  repeat match goal with
         | |- context [let (_, _) := ?p in _] => destruct p
         end.
  reflexivity.
Qed.

(** What [random.randrange(a, b)] promises. *)
Hypothesis randrange_range : forall pg a b r pg',
  random_randrange pg a b = Ok (r, pg') -> (a <= r < b)%Z.


End Exploration.

(** ** Determinism of a pass, and construction *)

Section Determinism.
Variable cospi : Q -> Q.
Variable rng : Type.
Variable uniform_ : rng -> nat -> list Q * rng.
Variable NoisyLinear : Type.
Variable NoisyLinear_forward : NoisyLinear -> tensor Q -> result (tensor Q).
Variable NoisyLinear_reset_noise : NoisyLinear -> rng -> NoisyLinear * rng.
Variable pyrng : Type.
Variable random_random : pyrng -> Q * pyrng.
Variable random_randrange : pyrng -> Z -> Z -> result (Z * pyrng).

#[local] Abbreviation forward' := (forward cospi uniform_ NoisyLinear_forward).
#[local] Abbreviation gated_embedding' := (gated_embedding cospi uniform_).
#[local] Abbreviation get_exploration_action' :=
  (get_exploration_action cospi uniform_ NoisyLinear_forward NoisyLinear_reset_noise
     random_random random_randrange).

Lemma gated_embedding_given_tau
    (self : Agent NoisyLinear) (img float_inputs : tensor Q) (num_quantiles : Z)
    (tau : tensor Q) (g1 g2 : rng) (concat tau' : tensor Q) (g1' : rng) :
  gated_embedding' self img float_inputs num_quantiles (Some tau) g1
    = Ok (concat, tau', g1') ->
  gated_embedding' self img float_inputs num_quantiles (Some tau) g2
    = Ok (concat, tau, g2).
Proof.
  intros H. unfold gated_embedding in *.
  do 5 inv_bind_rw H.
  cbn [sample_tau bind] in *.
  do 5 inv_bind_rw H.
  injection H as <- _ _. reflexivity.
Qed.

(** C8, as the code has it.  A pass that is given its quantile fractions
    does not read the random generator: with the same network (hence the
    same noise), inputs and fractions it returns the same values from any
    generator state, and leaves the generator as it was.  And when
    [epsilon] is not positive, [get_exploration_action] keeps the online
    network, noise included, as it found it. *)
Theorem forward_deterministic_given_tau :
  (forall (self : Agent NoisyLinear) (img float_inputs : tensor Q) (num_quantiles : Z)
          (tau : tensor Q) (g1 g2 : rng) (Qv tau' : tensor Q) (g1' : rng),
     forward' self img float_inputs num_quantiles (Some tau) g1 = Ok (Qv, tau', g1') ->
     forward' self img float_inputs num_quantiles (Some tau) g2 = Ok (Qv, tau, g2) /\
     g1' = g1) /\
  (forall (self : Trainer NoisyLinear) (img_inputs float_inputs : tensor Q)
          (g : rng) (pg : pyrng) (a : Z) (greedy : bool) (v : Q)
          (self' : Trainer NoisyLinear) (g' : rng) (pg' : pyrng),
     (epsilon self <= 0)%Q ->
     get_exploration_action' self img_inputs float_inputs g pg
       = Ok (a, greedy, v, self', g', pg') ->
     model self' = model self /\ model2 self' = model2 self).
Proof.
  split.
  - intros self img float_inputs num_quantiles tau g1 g2 Qv tau' g1' H.
    unfold forward in *.
    inv_bind H. destruct a as [[concat tau1] g3].
    pose proof E as E'. unfold gated_embedding in E'.
    do 5 inv_bind E'. cbn [sample_tau bind] in E'. do 5 inv_bind E'.
    injection E' as _ _ Hg.
    rewrite (gated_embedding_given_tau _ _ _ _ _ _ g2 _ _ _ E). cbn [bind].
    do 3 inv_bind_rw H.
    injection H as <- _ <-. now subst.
  - intros self img_inputs float_inputs g pg a greedy v self' g' pg' Heps H.
    unfold get_exploration_action in H.
    assert (Hb : Qlt_bool 0 (epsilon self) = false) by now apply Qlt_bool_false_iff.
    rewrite Hb in H.
    inv_bind H. destruct a0 as [[q tau] g1].
    inv_bind H.
    destruct (random_random pg) as [u pg1].
    destruct (Qlt_bool u _).
    + inv_bind H.
      match goal with x : (Z * pyrng)%type |- _ => destruct x as [r pg2] end.
      destruct (_ =? 0); [discriminate|].
      injection H as _ _ _ <- _ _. now split.
    + destruct (_ =? 0); [discriminate|].
      injection H as _ _ _ <- _ _. now split.
Qed.

(** C9, as the code has it.  Constructing a trainer never fails: every
    hyperparameter is stored as given, whatever its value. *)
Theorem Trainer_init_total
    (m m2 : Agent NoisyLinear) (bs k n : Z) (kappa eps gam : Q) (ns : Z) (alpha : Q) :
  exists t,
    Trainer_init m m2 bs k n kappa eps gam ns alpha = Ok t /\
    model t = m /\ model2 t = m2 /\
    batch_size t = bs /\ iqn_k t = k /\ iqn_n t = n /\ iqn_kappa t = kappa /\
    epsilon t = eps /\ gamma t = gam /\ n_steps t = ns /\ AL_alpha t = alpha.
Proof.
  eexists. split; [reflexivity|]. cbn. tauto.
Qed.

End Determinism.

(** ** The training target *)

Lemma mod_row (k b i : nat) : i < b -> (k * b + i) mod b = i.
Proof.
  intros Hi. rewrite Nat.add_comm, Nat.Div0.mod_add. now apply Nat.mod_small.
Qed.

Lemma row_lt (k n b i : nat) : k < n -> i < b -> k * b + i < n * b.
Proof. intros Hk Hi. nia. Qed.

Lemma get_column {A : Type} `{Dflt A} (l : list A) (b i : nat) :
  get (mkT [b; 1] l) [i; 0] = nth i l dflt.
Proof.
  unfold get; simpl. f_equal. lia.
Qed.

Lemma replicate_column_ok {A : Type} `{Dflt A} (n : nat) (l : list A) :
  replicate_column (Z.of_nat n) (of_list l) =
  Ok (build [n * length l; 1]
        (fun idx => get (mkT [length l; 1] l) (map2 Nat.modulo idx [length l; 1]))).
Proof.
  unfold replicate_column. rewrite reshape_column. cbn [bind].
  change [Z.of_nat n; 1%Z] with (map Z.of_nat [n; 1]).
  now rewrite trepeat_nat.
Qed.

Lemma replicate_column_get {A : Type} `{Dflt A} (n : nat) (l : list A) (t : tensor A)
    (k i : nat) :
  replicate_column (Z.of_nat n) (of_list l) = Ok t ->
  k < n -> i < length l ->
  shape t = [n * length l; 1] /\ get t [k * length l + i; 0] = nth i l dflt.
Proof.
  rewrite replicate_column_ok. intros E Hk Hi. injection E as <-.
  split; [reflexivity|].
  pose proof (row_lt k n (length l) i Hk Hi) as Hr.
  rewrite get_build by (simpl; lia).
  cbn [map2]. rewrite mod_row by exact Hi.
  change (0 mod 1) with 0. apply get_column.
Qed.

(** Repeating a column of [b] rows [n] times. *)
Lemma trepeat_column {A : Type} `{Dflt A} (n b : nat) (t : tensor A) :
  shape t = [b; 1] ->
  trepeat t [Z.of_nat n; 1%Z] =
  Ok (build [n * b; 1] (fun idx => get t (map2 Nat.modulo idx [b; 1]))).
Proof.
  intros Hsh.
  change [Z.of_nat n; 1%Z] with (map Z.of_nat [n; 1]).
  rewrite trepeat_nat by (unfold rank; now rewrite Hsh).
  now rewrite Hsh.
Qed.

(** Reshaping (iqn_n * batch_size, w) to (iqn_n, batch_size, w). *)
Lemma reshape_rows {A : Type} (n b w : nat) (t : tensor A) :
  shape t = [n * b; w] ->
  reshape t [Z.of_nat n; Z.of_nat b; Z.of_nat w] = Ok (mkT [n; b; w] (data t)).
Proof.
  intros Hsh.
  change [Z.of_nat n; Z.of_nat b; Z.of_nat w] with (map Z.of_nat [n; b; w]).
  apply reshape_nat. rewrite Hsh. simpl. lia.
Qed.

Lemma get_reshape_rows {A : Type} `{Dflt A} (n b w : nat) (t : tensor A) (k i j : nat) :
  shape t = [n * b; w] ->
  get (mkT [n; b; w] (data t)) [k; i; j] = get t [k * b + i; j].
Proof.
  intros Hsh. apply get_data. rewrite Hsh. simpl. lia.
Qed.

(** When [pow] returns, it returns the power. *)
Lemma pow_ok (x : Q) (n : Z) (p : Q) : pow x n = Ok p -> p = Qpower x n.
Proof.
  unfold pow.
  destruct (_ <=? _)%Z; [discriminate|].
  destruct (_ && _); [discriminate|].
  destruct (Qle_bool _ _); [discriminate|].
  now intros [= <-].
Qed.

(** [0.0] to a negative power is refused, whatever the exponent. *)
Lemma pow_zero_negative (x : Q) (n : Z) :
  (x == 0)%Q -> (n < 0)%Z -> exists e, pow x n = Err e.
Proof.
  intros Hx Hn. unfold pow.
  destruct (_ <=? _)%Z; [eauto|].
  apply Qeq_bool_iff in Hx. rewrite Hx.
  apply Z.ltb_lt in Hn. rewrite Hn. simpl. eauto.
Qed.

(** An error of [pow] is the error of the whole of line 236. *)
Lemma build_target_pow_raises (gamma : Q) (n_steps : Z) (AL_alpha : Q) (iqn_n batch_size : Z)
    (done : tensor bool) (rewards q_stpot_atpot v_s q_s_a v_stpot q_stpot_a : tensor Q)
    (e : error) :
  pow gamma n_steps = Err e ->
  build_target gamma n_steps AL_alpha iqn_n batch_size done rewards q_stpot_atpot
               v_s q_s_a v_stpot q_stpot_a = Err e.
Proof.
  intros H. unfold build_target, bootstrap. now rewrite H.
Qed.

Section Target.
Variables (gamma : Q) (n_steps : Z) (AL_alpha : Q) (n b : nat).
Variable discount : Q.
Hypothesis Hpow : pow gamma n_steps = Ok discount.
Variables (rewards : list Q) (dones : list bool).
Variables (q_stpot_atpot v_s q_s_a v_stpot q_stpot_a : tensor Q).
Hypothesis Hrewards : length rewards = b.
Hypothesis Hdones : length dones = b.
Hypothesis Hq : shape q_stpot_atpot = [n * b; 1].
Hypothesis Hv_s : shape v_s = [b; 1].
Hypothesis Hq_s_a : shape q_s_a = [b; 1].
Hypothesis Hv_stpot : shape v_stpot = [b; 1].
Hypothesis Hq_stpot_a : shape q_stpot_a = [b; 1].

Variables (rw : tensor Q) (dn : tensor bool).
Hypothesis Hrw : replicate_column (Z.of_nat n) (of_list rewards) = Ok rw.
Hypothesis Hdn : replicate_column (Z.of_nat n) (of_list dones) = Ok dn.

Lemma bootstrap_ok :
  exists base, bootstrap gamma n_steps dn rw q_stpot_atpot = Ok base /\
    shape base = [n * b; 1] /\
    forall k i, k < n -> i < b ->
      base.[k * b + i, 0] =
      if nth i dones false then nth i rewards 0%Q
      else (nth i rewards 0 + discount * q_stpot_atpot.[k * b + i, 0])%Q.
Proof using Hpow Hrewards Hdones Hq Hrw Hdn.
  assert (Srw : shape rw = [n * b; 1]).
  { rewrite replicate_column_ok in Hrw. injection Hrw as <-. now rewrite Hrewards. }
  assert (Sdn : shape dn = [n * b; 1]).
  { rewrite replicate_column_ok in Hdn. injection Hdn as <-. now rewrite Hdones. }
  unfold bootstrap. rewrite Hpow. cbn [bind].
  rewrite tzip_same by (now rewrite shape_tmap, Hq, Srw). cbn [bind].
  rewrite twhere_same by (now rewrite ?shape_build, ?Sdn, ?Srw).
  eexists. split; [reflexivity|]. split; [now rewrite shape_build|].
  intros k i Hk Hi.
  pose proof (row_lt k n b i Hk Hi) as Hr.
  rewrite <- Hrewards in Hi.
  destruct (replicate_column_get n rewards rw k i Hrw Hk Hi) as [_ Grw].
  rewrite Hrewards in Hi, Grw. rewrite <- Hdones in Hi.
  destruct (replicate_column_get n dones dn k i Hdn Hk Hi) as [_ Gdn].
  rewrite Hdones in Hi, Gdn.
  tsimp. rewrite Gdn, Grw. reflexivity.
Qed.

Lemma pal_correction_ok :
  exists corr, pal_correction AL_alpha (Z.of_nat n) v_s q_s_a v_stpot q_stpot_a = Ok corr /\
    shape corr = [n * b; 1] /\
    forall k i, k < n -> i < b ->
      corr.[k * b + i, 0] = (AL_alpha * pal_gap v_s q_s_a v_stpot q_stpot_a i)%Q.
Proof using Hv_s Hq_s_a Hv_stpot Hq_stpot_a.
  clear Hpow Hrewards Hdones Hq Hrw Hdn.
  unfold pal_correction.
  rewrite (tzip_same "sub" Qminus v_s q_s_a) by congruence. cbn [bind].
  rewrite (tzip_same "sub" Qminus v_stpot q_stpot_a) by congruence. cbn [bind].
  rewrite tzip_same by (rewrite !shape_build; congruence). cbn [bind].
  rewrite shape_build, Hv_s.
  rewrite (trepeat_column n b) by now rewrite shape_build. cbn [bind].
  eexists. split; [reflexivity|]. split; [now rewrite shape_tmap, shape_build|].
  intros k i Hk Hi.
  pose proof (row_lt k n b i Hk Hi) as Hr.
  rewrite get_tmap by in_range_tac.
  rewrite get_build by in_range_tac.
  cbn [map2]. rewrite mod_row by exact Hi. change (0 mod 1) with 0.
  tsimp. reflexivity.
Qed.

Lemma build_target_ok :
  exists base corr target,
    bootstrap gamma n_steps dn rw q_stpot_atpot = Ok base /\
    pal_correction AL_alpha (Z.of_nat n) v_s q_s_a v_stpot q_stpot_a = Ok corr /\
    build_target gamma n_steps AL_alpha (Z.of_nat n) (Z.of_nat b) dn rw
                 q_stpot_atpot v_s q_s_a v_stpot q_stpot_a = Ok target /\
    shape target = [b; n; 1] /\
    forall k i, k < n -> i < b ->
      target.[i, k, 0] = (base.[k * b + i, 0] - corr.[k * b + i, 0])%Q.
Proof using Hpow Hrewards Hdones Hq Hv_s Hq_s_a Hv_stpot Hq_stpot_a Hrw Hdn.
  destruct bootstrap_ok as (base & Ebase & Sbase & _).
  destruct pal_correction_ok as (corr & Ecorr & Scorr & _).
  exists base, corr. unfold build_target. rewrite Ebase, Ecorr. cbn [bind].
  rewrite tzip_same by congruence. cbn [bind].
  change 1%Z with (Z.of_nat 1).
  rewrite (reshape_rows n b 1) by now rewrite shape_build. cbn [bind].
  unfold transpose, rank. cbn [shape length Nat.ltb Nat.leb andb].
  eexists. split; [reflexivity|]. split; [reflexivity|]. split; [reflexivity|].
  split; [reflexivity|].
  intros k i Hk Hi.
  pose proof (row_lt k n b i Hk Hi) as Hr.
  rewrite get_build by (simpl; lia). cbn [swap_at replace_at nth].
  rewrite (get_reshape_rows n b 1) by now rewrite shape_build.
  tsimp. reflexivity.
Qed.

End Target.


(** ** The PAL correction *)

Section Pal.
Variables (n b a : nat) (q_alla : tensor Q) (index : tensor Z).
Hypothesis Hq_alla : shape q_alla = [n * b; a].
Hypothesis Ha : 0 < a.
Hypothesis Hindex : shape index = [b; 1].
Hypothesis Hbounds :
  forallb (fun z => (0 <=? z) && (z <? Z.of_nat a))%Z (data index) = true.

#[local] Abbreviation qbar := (quantile_average n b a q_alla).

Lemma taken_action_lt (i : nat) : Z.to_nat (index.[i, 0]) < a.
Proof using Ha Hbounds.
  assert (Hb : ((0 <=? index.[i, 0]) && (index.[i, 0] <? Z.of_nat a))%Z = true).
  { unfold get. apply (forallb_nth (fun z => (0 <=? z) && (z <? Z.of_nat a))%Z).
    - exact Hbounds.
    - unfold dflt, Dflt_Z. apply andb_true_iff. split.
      + now apply Z.leb_le.
      + apply Z.ltb_lt. lia. }
  apply andb_true_iff in Hb. destruct Hb as [H0 H1].
  apply Z.leb_le in H0. apply Z.ltb_lt in H1. lia.
Qed.

Lemma pal_terms_ok :
  exists v q_a,
    pal_cur (Z.of_nat n) (Z.of_nat b) (Z.of_nat a) q_alla index = Ok (v, q_a) /\
    pal_next (Z.of_nat n) (Z.of_nat b) (Z.of_nat a) q_alla index = Ok (v, q_a) /\
    shape v = [b; 1] /\ shape q_a = [b; 1] /\
    forall i, i < b ->
      v.[i, 0] = list_max (map (fun k => qbar.[i, k]) (seq 0 a)) /\
      q_a.[i, 0] = qbar.[i, Z.to_nat (index.[i, 0])] /\
      (q_a.[i, 0] <= v.[i, 0])%Q.
Proof using Hq_alla Ha Hindex Hbounds.
  assert (Hmean : tmean 0 (mkT [n; b; a] (data q_alla)) = Ok qbar)
    by reflexivity.
  assert (Sq : shape qbar = [b; a]) by reflexivity.
  assert (Hmax : tmax_keep 1 qbar
                 = Ok (reduce_keep list_max 1 qbar)).
  { unfold tmax_keep, rank, size. rewrite Sq. simpl.
    destruct (Nat.eqb_spec a 0); [lia|reflexivity]. }
  pose proof (gather_dim1_ok qbar index b a 1 Sq Hindex Hbounds) as Hg.
  eexists. eexists.
  split; [|split].
  - unfold pal_cur. rewrite (reshape_rows n b a) by exact Hq_alla. cbn [bind].
    rewrite Hmean. cbn [bind]. rewrite Hg. cbn [bind]. rewrite Hmax. reflexivity.
  - unfold pal_next. rewrite (reshape_rows n b a) by exact Hq_alla. cbn [bind].
    rewrite Hmean. cbn [bind]. rewrite Hmax. cbn [bind]. rewrite Hg. reflexivity.
  - split; [unfold reduce_keep; now rewrite shape_build, Sq|].
    split; [reflexivity|].
    intros i Hi.
    pose proof (taken_action_lt i) as Hlt.
    assert (Hv : (reduce_keep list_max 1 qbar).[i, 0]
                 = list_max (map (fun k => qbar.[i, k]) (seq 0 a))).
    { unfold reduce_keep. rewrite Sq. tsimp. reflexivity. }
    assert (Hqa : (build [b; 1] (fun idx =>
                     get qbar
                         (replace_at 1 (Z.to_nat (get index idx)) idx))).[i, 0]
                  = qbar.[i, Z.to_nat (index.[i, 0])]).
    { tsimp. reflexivity. }
    split; [exact Hv|]. split; [exact Hqa|].
    rewrite Hv, Hqa.
    apply (list_max_ge (fun k => qbar.[i, k]) a _ Hlt).
Qed.

End Pal.

(** The PAL blocks with the index the comments of lines 216 and 231 have in
    mind, a (batch_size, 1) column of valid actions: the current and the
    next value are maxima over the actions of the very quantile-averaged
    tensors the taken-action values are gathered from, so both advantage
    gaps are non-negative, and so is their minimum; with [AL_alpha >= 0]
    the correction subtracted from the target is non-negative, and the
    target never exceeds the bootstrap target. *)
Lemma pal_correction_nonneg
    (gamma : Q) (n_steps : Z) (AL_alpha : Q) (n b a : nat)
    (rewards : list Q) (dones : list bool)
    (outputs q_stpot_alla q_stpot_atpot : tensor Q) (index : tensor Z)
    (rw : tensor Q) (dn : tensor bool) (discount : Q) :
  pow gamma n_steps = Ok discount ->
  (0 <= AL_alpha)%Q ->
  0 < a ->
  shape outputs = [n * b; a] ->
  shape q_stpot_alla = [n * b; a] ->
  shape index = [b; 1] ->
  forallb (fun z => (0 <=? z) && (z <? Z.of_nat a))%Z (data index) = true ->
  length rewards = b ->
  length dones = b ->
  shape q_stpot_atpot = [n * b; 1] ->
  replicate_column (Z.of_nat n) (of_list rewards) = Ok rw ->
  replicate_column (Z.of_nat n) (of_list dones) = Ok dn ->
  exists v_s q_s_a v_stpot q_stpot_a corr base target,
    pal_cur (Z.of_nat n) (Z.of_nat b) (Z.of_nat a) outputs index = Ok (v_s, q_s_a) /\
    pal_next (Z.of_nat n) (Z.of_nat b) (Z.of_nat a) q_stpot_alla index
      = Ok (v_stpot, q_stpot_a) /\
    pal_correction AL_alpha (Z.of_nat n) v_s q_s_a v_stpot q_stpot_a = Ok corr /\
    bootstrap gamma n_steps dn rw q_stpot_atpot = Ok base /\
    build_target gamma n_steps AL_alpha (Z.of_nat n) (Z.of_nat b) dn rw
                 q_stpot_atpot v_s q_s_a v_stpot q_stpot_a = Ok target /\
    forall i k, i < b -> k < n ->
      (0 <= v_s.[i, 0] - q_s_a.[i, 0])%Q /\
      (0 <= v_stpot.[i, 0] - q_stpot_a.[i, 0])%Q /\
      (0 <= pal_gap v_s q_s_a v_stpot q_stpot_a i)%Q /\
      (0 <= corr.[k * b + i, 0])%Q /\
      (target.[i, k, 0] <= base.[k * b + i, 0])%Q.
Proof.
  intros Hpow Halpha Ha Houtputs Hnext Hindex Hbounds Hrewards Hdones Hq Hrw Hdn.
  destruct (pal_terms_ok n b a outputs index Houtputs Ha Hindex Hbounds)
    as (v_s & q_s_a & Ecur & _ & Sv_s & Sq_s_a & Gcur).
  destruct (pal_terms_ok n b a q_stpot_alla index Hnext Ha Hindex Hbounds)
    as (v_stpot & q_stpot_a & _ & Enext & Sv_stpot & Sq_stpot_a & Gnext).
  destruct (build_target_ok gamma n_steps AL_alpha n b discount Hpow rewards dones q_stpot_atpot
              v_s q_s_a v_stpot q_stpot_a Hrewards Hdones Hq Sv_s Sq_s_a Sv_stpot
              Sq_stpot_a rw dn Hrw Hdn)
    as (base & corr & target & Ebase & Ecorr & Etarget & _ & Gtarget).
  destruct (pal_correction_ok AL_alpha n b v_s q_s_a v_stpot q_stpot_a
              Sv_s Sq_s_a Sv_stpot Sq_stpot_a) as (corr' & Ecorr' & _ & Gcorr).
  assert (corr' = corr) by congruence. subst corr'.
  exists v_s, q_s_a, v_stpot, q_stpot_a, corr, base, target.
  do 5 (split; [assumption|]).
  intros i k Hi Hk.
  destruct (Gcur i Hi) as (_ & _ & Hcur).
  destruct (Gnext i Hi) as (_ & _ & Hnxt).
  assert (Hgap : (0 <= pal_gap v_s q_s_a v_stpot q_stpot_a i)%Q).
  { unfold pal_gap.
    destruct (qmin_spec (v_s.[i, 0] - q_s_a.[i, 0])%Q
                        (v_stpot.[i, 0] - q_stpot_a.[i, 0])%Q) as (_ & _ & [E|E]);
      rewrite E; lra. }
  assert (Hcorr : (0 <= corr.[k * b + i, 0])%Q).
  { rewrite (Gcorr k i Hk Hi). now apply Qmult_le_0_compat. }
  split; [lra|]. split; [lra|]. split; [exact Hgap|]. split; [exact Hcorr|].
  rewrite (Gtarget k i Hk Hi). lra.
Qed.

(** ** The quantile regression loss *)

Lemma broadcast_cross (b n : nat) :
  broadcast_shapes [b; n; 1; 1] [b; 1; n; 1] = Some [b; n; n; 1].
Proof.
  unfold broadcast_shapes, pad. simpl.
  now rewrite !bdim_refl, bdim_1_r, bdim_1_l.
Qed.

Lemma expand_zip_cross (b n : nat) :
  expand_zip [b; 1; n; 1] [(-1)%Z; Z.of_nat n; (-1)%Z; (-1)%Z] = Some [b; n; n; 1].
Proof.
  simpl.
  destruct (Z.eqb_spec (Z.of_nat n) (-1)); [lia|].
  destruct (Z.ltb_spec (Z.of_nat n) 0); [lia|].
  rewrite orb_true_r, Nat2Z.id. reflexivity.
Qed.

Section Loss.
Variables (kappa : Q) (n b : nat).
Variables (outputs_target outputs tau : tensor Q).
Hypothesis Htarget : shape outputs_target = [b; n; 1].
Hypothesis Houtputs : shape outputs = [b; n; 1].
Hypothesis Htau : shape tau = [n * b; 1].

Lemma td_error_ok :
  exists TD, td_error outputs_target outputs = Ok TD /\
    shape TD = [b; n; n; 1] /\
    forall bi i j, bi < b -> i < n -> j < n ->
      TD.[bi, i, j, 0] = (outputs_target.[bi, i, 0] - outputs.[bi, j, 0])%Q.
Proof using Htarget Houtputs.
  unfold td_error, slice_none, rank. rewrite Htarget, Houtputs. cbn [length Nat.ltb Nat.leb Nat.add bind].
  unfold tzip. rewrite !shape_unsqueeze, Htarget, Houtputs.
  cbn [insert_at]. rewrite broadcast_cross.
  eexists. split; [reflexivity|]. split; [reflexivity|].
  intros bi i j Hbi Hi Hj. tsimp.
  f_equal; unfold unsqueeze; apply get_data.
  - rewrite Htarget. simpl. lia.
  - rewrite Houtputs. simpl. lia.
Qed.

Lemma tau_grid_ok :
  exists G, tau_grid (Z.of_nat n) (Z.of_nat b) tau = Ok G /\
    shape G = [b; n; n; 1] /\
    forall bi i j, bi < b -> i < n -> j < n ->
      G.[bi, i, j, 0] = tau.[j * b + bi, 0].
Proof using Htau.
  unfold tau_grid. change 1%Z with (Z.of_nat 1).
  rewrite (reshape_rows n b 1) by exact Htau. cbn [bind].
  unfold transpose, rank. cbn [shape length Nat.ltb Nat.leb andb bind swap_at replace_at nth].
  unfold slice_none, rank. rewrite shape_build. cbn [length Nat.ltb Nat.leb Nat.add bind].
  unfold expand, rank. rewrite shape_unsqueeze, shape_build.
  cbn [insert_at length Nat.ltb Nat.leb Nat.sub firstn skipn existsb map app].
  change (Z.of_nat 1) with 1%Z. rewrite expand_zip_cross.
  eexists. split; [reflexivity|]. split; [reflexivity|].
  intros bi i j Hbi Hi Hj. tsimp.
  cbn [insert_at]. tsimp.
  unfold unsqueeze. rewrite shape_build.
  rewrite (get_data (build [b; n; 1] _) [b; 1; n; 1] [bi; 0; j; 0] [bi; j; 0])
    by (rewrite shape_build; simpl; lia).
  tsimp. apply get_reshape_rows. exact Htau.
Qed.

#[local] Abbreviation pair_loss' := (pair_loss kappa b outputs_target outputs tau).

Lemma quantile_loss_ok :
  exists loss, quantile_loss kappa (Z.of_nat n) (Z.of_nat b) outputs_target outputs tau
               = Ok loss /\
    shape loss = [b] /\
    forall bi, bi < b ->
      loss.[bi] =
      Qmean (map (fun i => Qsum (map (fun j => pair_loss' bi i j) (seq 0 n))) (seq 0 n)).
Proof using Htarget Houtputs Htau.
  destruct td_error_ok as (TD & ETD & STD & GTD).
  destruct tau_grid_ok as (G & EG & SG & GG).
  unfold quantile_loss, huber. rewrite ETD. cbn [bind].
  rewrite twhere_same by (repeat rw_shape; reflexivity). cbn [bind].
  rewrite EG. cbn [bind].
  rewrite twhere_same by (repeat rw_shape; reflexivity). cbn [bind].
  rewrite tzip_same by (repeat rw_shape; reflexivity). cbn [bind].
  unfold tsum, tmean, select, rank, size, reduce.
  repeat rw_shape.
  cbn [length Nat.leb remove_at bind nth].
  eexists. split; [reflexivity|]. split; [reflexivity|].
  intros bi Hbi. tsimp.
  unfold Qmean. rewrite !length_map, !length_seq. f_equal.
  f_equal. apply map_ext_in. intros i Hi. apply in_seq in Hi.
  tsimp. f_equal. apply map_ext_in. intros j Hj. apply in_seq in Hj.
  tsimp. rewrite (GTD bi i j), (GG bi i j) by lia.
  reflexivity.
Qed.

End Loss.


(** ** The training step as a whole *)

Lemma bind_raises {A B : Type} (m : result A) (k : A -> result B) :
  (forall a, m = Ok a -> exists e, k a = Err e) -> exists e, bind m k = Err e.
Proof.
  intros Hk. destruct m as [a|e]; simpl.
  - now apply Hk.
  - now exists e.
Qed.

Lemma infer_shape_length (n : nat) (spec : list Z) (sh : list nat) :
  infer_shape n spec = Ok sh -> length sh = length spec.
Proof.
  unfold infer_shape.
  destruct (existsb _ spec); [discriminate|].
  destruct (length (filter _ spec)) as [|[|k]]; try discriminate.
  - destruct (_ =? n); [|discriminate]. intros E; injection E as <-. apply length_map.
  - destruct (_ || _); [discriminate|]. intros E; injection E as <-. apply length_map.
Qed.

(** A gather along dimension 1 of a matrix refuses a one-dimensional index. *)
Lemma gather_rank_mismatch {A : Type} `{Dflt A} (t : tensor A) (index : tensor Z) (d : nat) :
  rank t = 2 -> rank index = 1 -> gather t d index = Err (DimMismatch "gather").
Proof.
  intros Ht Hi. unfold gather. now rewrite Ht, Hi.
Qed.

Lemma pal_next_rank1 (n b a : Z) (q : tensor Q) (index : tensor Z) :
  rank index = 1 -> exists e, pal_next n b a q index = Err e.
Proof.
  intros Hi. unfold pal_next.
  apply bind_raises. intros t Et.
  apply bind_raises. intros m Em.
  apply bind_raises. intros v Ev.
  assert (Hm : rank m = 2).
  { unfold reshape in Et. apply bind_ok in Et. destruct Et as (sh & Esh & Et).
    injection Et as <-. apply infer_shape_length in Esh.
    unfold tmean in Em. destruct (_ <=? 0); [discriminate|]. injection Em as <-.
    unfold rank, reduce. rewrite shape_build. simpl in *.
    destruct sh as [|d0 [|d1 [|d2 [|d3 sh]]]]; simpl in *; try discriminate.
    reflexivity. }
  rewrite (gather_rank_mismatch m index 1 Hm Hi). simpl. eauto.
Qed.

Lemma pal_cur_rank1 (n b a : Z) (q : tensor Q) (index : tensor Z) :
  rank index = 1 -> exists e, pal_cur n b a q index = Err e.
Proof.
  intros Hi. unfold pal_cur.
  apply bind_raises. intros t Et.
  apply bind_raises. intros m Em.
  assert (Hm : rank m = 2).
  { unfold reshape in Et. apply bind_ok in Et. destruct Et as (sh & Esh & Et).
    injection Et as <-. apply infer_shape_length in Esh.
    unfold tmean in Em. destruct (_ <=? 0); [discriminate|]. injection Em as <-.
    unfold rank, reduce. rewrite shape_build. simpl in *.
    destruct sh as [|d0 [|d1 [|d2 [|d3 sh]]]]; simpl in *; try discriminate.
    reflexivity. }
  rewrite (gather_rank_mismatch m index 1 Hm Hi). simpl. eauto.
Qed.

Section Step.
Variable cospi : Q -> Q.
Variable rng : Type.
Variable uniform_ : rng -> nat -> list Q * rng.
Variable NoisyLinear : Type.
Variable NoisyLinear_forward : NoisyLinear -> tensor Q -> result (tensor Q).
Variable NoisyLinear_reset_noise : NoisyLinear -> rng -> NoisyLinear * rng.

#[local] Abbreviation forward' := (forward cospi uniform_ NoisyLinear_forward).
#[local] Abbreviation reset_noise' := (reset_noise NoisyLinear_reset_noise).
#[local] Abbreviation train_on_batch' :=
  (train_on_batch cospi uniform_ NoisyLinear_forward NoisyLinear_reset_noise).
#[local] Abbreviation train_on_batch_body' :=
  (train_on_batch_body cospi uniform_ NoisyLinear_forward NoisyLinear_reset_noise).

(** X1. Whatever the trainer, the batch and the generator, [train_on_batch]
    raises: when every earlier step succeeds, the gather of line 215 is
    handed the one-dimensional [actions] as index into a matrix. *)
Lemma train_on_batch_raises
    (self : Trainer NoisyLinear) (batch : list Transition) (is_weights : list Q) (g : rng) :
  exists e, train_on_batch' self batch is_weights g = Err e.
Proof.
  unfold train_on_batch, train_on_batch_body.
  do 7 (apply bind_raises; intros ? ?).
  destruct (reset_noise' (model self) g) as [m g1].
  apply bind_raises. intros [[q_stpo_alla t0] g2] _.
  apply bind_raises. intros a_tpo _.
  destruct (reset_noise' (model2 self) g2) as [m2 g3].
  apply bind_raises. intros [[q_stpot_alla tau] g4] _.
  apply bind_raises. intros q_stpot_atpot _.
  apply bind_raises. intros [v_stpot q_stpot_a] Hpal.
  exfalso.
  destruct (pal_next_rank1 (iqn_n self) (batch_size self) (n_actions m) q_stpot_alla
              (of_list (map action batch)) eq_refl) as [e He].
  congruence.
Qed.

End Step.

Section StepTau.
Variable cospi : Q -> Q.
Variable rng : Type.
Variable uniform_ : rng -> nat -> list Q * rng.
Variable NoisyLinear : Type.
Variable NoisyLinear_forward : NoisyLinear -> tensor Q -> result (tensor Q).
Variable NoisyLinear_reset_noise : NoisyLinear -> rng -> NoisyLinear * rng.

#[local] Abbreviation forward' := (forward cospi uniform_ NoisyLinear_forward).
#[local] Abbreviation reset_noise' := (reset_noise NoisyLinear_reset_noise).
#[local] Abbreviation train_on_batch_body' :=
  (train_on_batch_body cospi uniform_ NoisyLinear_forward NoisyLinear_reset_noise).

(** The step taken with any index tensor [pal_index actions] for the two
    PAL gathers (a column, as the comments of lines 216 and 231 have it,
    lets the step return): whenever it returns, the target network's pass
    on the next state was given no quantile fractions and drew [tau]
    afresh, and the online network's pass on the current state was given
    that very [tau], returned it, and drew nothing. *)
Lemma online_pass_reuses_target_tau
    (pal_index : tensor Z -> tensor Z)
    (self : Trainer NoisyLinear) (batch : list Transition) (is_weights : list Q)
    (g : rng) (s : step rng NoisyLinear) :
  train_on_batch_body' pal_index self batch is_weights g = Ok s ->
  exists (state_img_tensor state_float_tensor next_img_tensor next_float_tensor : tensor Q)
         (g1 g2 g3 : rng) (q_stpot_alla : tensor Q) (k : nat),
    stack (map state_img batch) = Ok state_img_tensor /\
    stack (map state_float batch) = Ok state_float_tensor /\
    stack (map next_state_img batch) = Ok next_img_tensor /\
    stack (map next_state_float batch) = Ok next_float_tensor /\
    forward' (model2 (st_trainer s)) next_img_tensor next_float_tensor (iqn_n self) None g1
      = Ok (q_stpot_alla, st_tau s, g2) /\
    st_tau s = mkT [k; 1] (fst (uniform_ g1 k)) /\
    (Z.of_nat (size next_img_tensor 0) * iqn_n self)%Z = Z.of_nat k /\
    forward' (model (st_trainer s)) state_img_tensor state_float_tensor (iqn_n self)
             (Some (st_tau s)) g3
      = Ok (st_outputs s, st_tau s, g3) /\
    st_rng s = g3.
Proof.
  intros H. unfold train_on_batch_body in H.
  inv_bind H. rename a into state_img_tensor.
  inv_bind H. rename a into state_float_tensor.
  inv_bind H. rename a into next_img_tensor.
  inv_bind H. rename a into next_float_tensor.
  do 3 inv_bind H.
  destruct (reset_noise' (model self) g) as [m ga].
  inv_bind H. destruct a2 as [[q_stpo_alla t0] gb].
  inv_bind H.
  destruct (reset_noise' (model2 self) gb) as [m2 g1].
  inv_bind H. destruct a3 as [[q_stpot_alla tau] g2].
  do 2 inv_bind H. destruct a4 as [v_stpot q_stpot_a].
  destruct (reset_noise' m g2) as [m' g3].
  inv_bind H. destruct a4 as [[outputs t1] g4].
  inv_bind H. destruct a4 as [v_s q_s_a].
  do 5 inv_bind H.
  injection H as <-. cbn [st_tau st_outputs st_trainer st_rng model model2 with_models].
  pose proof (forward_tau_inv _ _ _ _ _ _ _ _ _ _ _ _ _ _ E8) as Hfresh.
  cbn in Hfresh. destruct Hfresh as (k & Hk & Htau & Hg2).
  pose proof (forward_tau_inv _ _ _ _ _ _ _ _ _ _ _ _ _ _ E11) as Hsame.
  cbn in Hsame. destruct Hsame as [-> ->].
  exists state_img_tensor, state_float_tensor, next_img_tensor, next_float_tensor,
         g1, g2, g3, q_stpot_alla, k.
  subst tau.
  repeat (split; [first [assumption | reflexivity | lia]|]). reflexivity.
Qed.

End StepTau.

(** * The statements on the small instance *)

Lemma forward_dueling_zero_mean_witness :
  exists concat tau' A V g',
    gated_embedding Toy.cospi Toy.uniform_ Toy.agent
      (mkT [2; 1; 1; 1] [256; 0]%Q) (mkT [2; 1] [1; 3]%Q) 2 None 0 = Ok (concat, tau', g') /\
    head_forward Toy.NoisyLinear_forward (A_head Toy.agent) concat = Ok A /\
    head_forward Toy.NoisyLinear_forward (V_head Toy.agent) concat = Ok V /\
    shape A = [4; 2] /\
    shape V = [4; 1] /\
    0 < 2 /\
    exists Qv,
      forward Toy.cospi Toy.uniform_ Toy.NoisyLinear_forward Toy.agent
        (mkT [2; 1; 1; 1] [256; 0]%Q) (mkT [2; 1] [1; 3]%Q) 2 None 0 = Ok (Qv, tau', g') /\
      shape Qv = [4; 2] /\
      forall r, r < 4 ->
        (forall a, a < 2 ->
           (Qv.[r, a] ==
            V.[r, 0] + (A.[r, a] - Qmean (map (fun k => A.[r, k]) (seq 0 2))))%Q) /\
        (Qmean (map (fun a => Qv.[r, a] - V.[r, 0]) (seq 0 2)) == 0)%Q.
Proof.
  do 5 eexists.
  match goal with
  | |- ?P1 /\ ?P2 /\ ?P3 /\ ?P4 /\ ?P5 /\ ?P6 /\ _ =>
      assert (h1 : P1) by (vm_compute; reflexivity);
      assert (h2 : P2) by (vm_compute; reflexivity);
      assert (h3 : P3) by (vm_compute; reflexivity);
      assert (h4 : P4) by reflexivity;
      assert (h5 : P5) by reflexivity;
      assert (h6 : P6) by lia;
      exact (conj h1 (conj h2 (conj h3 (conj h4 (conj h5 (conj h6
               (forward_dueling_zero_mean _ _ _ _ _ _ _ _ _ _ _ _ _ _ _ _ _ _
                  h1 h2 h3 h4 h5 h6)))))))
  end.
Defined.

Lemma forward_returns_supplied_tau_witness :
  exists Qv tau' g',
    forward Toy.cospi Toy.uniform_ Toy.NoisyLinear_forward Toy.agent
      (mkT [2; 1; 1; 1] [256; 0]%Q) (mkT [2; 1] [1; 3]%Q) 2
      (Some (mkT [4; 1] [0; 1 # 2; 1 # 3; 0]%Q)) 7 = Ok (Qv, tau', g') /\
    (tau' = mkT [4; 1] [0; 1 # 2; 1 # 3; 0]%Q /\ g' = 7).
Proof.
  do 3 eexists.
  match goal with
  | |- ?P1 /\ _ =>
      assert (h1 : P1) by (vm_compute; reflexivity);
      exact (conj h1 (forward_returns_supplied_tau _ _ _ _ _ _ _ _ _ _ _ _ _ _ h1))
  end.
Defined.

Lemma Toy_randrange_range (pg : Toy.pyrng) (a b r : Z) (pg' : Toy.pyrng) :
  Toy.random_randrange pg a b = Ok (r, pg') -> (a <= r < b)%Z.
Proof.
  unfold Toy.random_randrange.
  destruct (Z.ltb_spec a b) as [Hab|Hab]; [|discriminate].
  intros E. injection E as <- _.
  pose proof (Z.mod_pos_bound (Z.of_nat pg) (b - a) ltac:(lia)). lia.
Qed.




Lemma pal_correction_nonneg_witness :
  exists rw dn discount,
    pow (9 # 10) 3 = Ok discount /\
    (0 <= 1 # 2)%Q /\
    0 < 2 /\
    shape Toy.q_cur_alla = [2 * 2; 2] /\
    shape Toy.q_next_alla = [2 * 2; 2] /\
    shape Toy.taken = [2; 1] /\
    forallb (fun z => (0 <=? z) && (z <? Z.of_nat 2))%Z (data Toy.taken) = true /\
    length Toy.rewards = 2 /\
    length Toy.dones = 2 /\
    shape Toy.q_next_at = [2 * 2; 1] /\
    replicate_column (Z.of_nat 2) (of_list Toy.rewards) = Ok rw /\
    replicate_column (Z.of_nat 2) (of_list Toy.dones) = Ok dn /\
    exists v_s q_s_a v_stpot q_stpot_a corr base target,
      pal_cur (Z.of_nat 2) (Z.of_nat 2) (Z.of_nat 2) Toy.q_cur_alla Toy.taken
        = Ok (v_s, q_s_a) /\
      pal_next (Z.of_nat 2) (Z.of_nat 2) (Z.of_nat 2) Toy.q_next_alla Toy.taken
        = Ok (v_stpot, q_stpot_a) /\
      pal_correction (1 # 2) (Z.of_nat 2) v_s q_s_a v_stpot q_stpot_a = Ok corr /\
      bootstrap (9 # 10) 3 dn rw Toy.q_next_at = Ok base /\
      build_target (9 # 10) 3 (1 # 2) (Z.of_nat 2) (Z.of_nat 2) dn rw
        Toy.q_next_at v_s q_s_a v_stpot q_stpot_a = Ok target /\
      forall i k, i < 2 -> k < 2 ->
        (0 <= v_s.[i, 0] - q_s_a.[i, 0])%Q /\
        (0 <= v_stpot.[i, 0] - q_stpot_a.[i, 0])%Q /\
        (0 <= pal_gap v_s q_s_a v_stpot q_stpot_a i)%Q /\
        (0 <= corr.[k * 2 + i, 0])%Q /\
        (target.[i, k, 0] <= base.[k * 2 + i, 0])%Q.
Proof.
  do 3 eexists.
  match goal with
  | |- ?P0 /\ ?P1 /\ ?P2 /\ _ /\ _ /\ _ /\ _ /\ _ /\ _ /\ _ /\ ?P10 /\ ?P11 /\ _ =>
      assert (h0 : P0) by (vm_compute; reflexivity);
      assert (h1 : P1) by (vm_compute; discriminate);
      assert (h2 : P2) by lia;
      assert (h10 : P10) by (vm_compute; reflexivity);
      assert (h11 : P11) by (vm_compute; reflexivity);
      exact (conj h0 (conj h1 (conj h2 (conj eq_refl (conj eq_refl (conj eq_refl
              (conj eq_refl (conj eq_refl (conj eq_refl (conj eq_refl (conj h10 (conj h11
                (pal_correction_nonneg (9 # 10) 3 (1 # 2) 2 2 2 Toy.rewards Toy.dones
                   Toy.q_cur_alla Toy.q_next_alla Toy.q_next_at Toy.taken _ _ _
                   h0 h1 h2 eq_refl eq_refl eq_refl eq_refl eq_refl eq_refl eq_refl
                   h10 h11)))))))))))))
  end.
Defined.

Lemma online_pass_reuses_target_tau_witness :
  exists s,
    train_on_batch_body Toy.cospi Toy.uniform_ Toy.NoisyLinear_forward
      Toy.NoisyLinear_reset_noise Toy.column Toy.trainer Toy.batch [1; 1]%Q 0 = Ok s /\
    exists (state_img_tensor state_float_tensor next_img_tensor next_float_tensor : tensor Q)
           (g1 g2 g3 : Toy.rng) (q_stpot_alla : tensor Q) (k : nat),
      stack (map state_img Toy.batch) = Ok state_img_tensor /\
      stack (map state_float Toy.batch) = Ok state_float_tensor /\
      stack (map next_state_img Toy.batch) = Ok next_img_tensor /\
      stack (map next_state_float Toy.batch) = Ok next_float_tensor /\
      forward Toy.cospi Toy.uniform_ Toy.NoisyLinear_forward (model2 (st_trainer s))
        next_img_tensor next_float_tensor (iqn_n Toy.trainer) None g1
        = Ok (q_stpot_alla, st_tau s, g2) /\
      st_tau s = mkT [k; 1] (fst (Toy.uniform_ g1 k)) /\
      (Z.of_nat (size next_img_tensor 0) * iqn_n Toy.trainer)%Z = Z.of_nat k /\
      forward Toy.cospi Toy.uniform_ Toy.NoisyLinear_forward (model (st_trainer s))
        state_img_tensor state_float_tensor (iqn_n Toy.trainer) (Some (st_tau s)) g3
        = Ok (st_outputs s, st_tau s, g3) /\
      st_rng s = g3.
Proof.
  eexists.
  match goal with
  | |- ?P1 /\ _ =>
      assert (h1 : P1) by (vm_compute; reflexivity);
      exact (conj h1 (online_pass_reuses_target_tau _ _ _ _ _ _ _ _ _ _ _ _ h1))
  end.
Defined.

Lemma forward_deterministic_given_tau_witness :
  exists Qv g' a v self' pg',
    (forward Toy.cospi Toy.uniform_ Toy.NoisyLinear_forward Toy.agent
       (unsqueeze 0 (Toy.img 256)) (unsqueeze 0 (Toy.feat 1)) 1
       (Some (mkT [1; 1] [1 # 2]%Q)) 0 = Ok (Qv, mkT [1; 1] [1 # 2]%Q, 0) /\
     forward Toy.cospi Toy.uniform_ Toy.NoisyLinear_forward Toy.agent
       (unsqueeze 0 (Toy.img 256)) (unsqueeze 0 (Toy.feat 1)) 1
       (Some (mkT [1; 1] [1 # 2]%Q)) 5 = Ok (Qv, mkT [1; 1] [1 # 2]%Q, 5)) /\
    ((epsilon Toy.evaluator <= 0)%Q /\
     get_exploration_action Toy.cospi Toy.uniform_ Toy.NoisyLinear_forward
       Toy.NoisyLinear_reset_noise Toy.random_random Toy.random_randrange
       Toy.evaluator (Toy.img 256) (Toy.feat 1) 0 0 = Ok (a, true, v, self', g', pg') /\
     model self' = model Toy.evaluator /\ model2 self' = model2 Toy.evaluator).
Proof.
  do 6 eexists.
  match goal with
  | |- (?P1 /\ _) /\ (?P2 /\ ?P3 /\ _) =>
      assert (h1 : P1) by (vm_compute; reflexivity);
      assert (h2 : P2) by (vm_compute; discriminate);
      assert (h3 : P3) by (vm_compute; reflexivity);
      exact (conj
               (conj h1 (proj1 (proj1 (forward_deterministic_given_tau
                                         Toy.cospi _ Toy.uniform_ _ Toy.NoisyLinear_forward
                                         Toy.NoisyLinear_reset_noise _ Toy.random_random
                                         Toy.random_randrange)
                                      _ _ _ _ _ _ 5 _ _ _ h1)))
               (conj h2 (conj h3
                  (proj2 (forward_deterministic_given_tau
                            Toy.cospi _ Toy.uniform_ _ Toy.NoisyLinear_forward
                            Toy.NoisyLinear_reset_noise _ Toy.random_random
                            Toy.random_randrange)
                         _ _ _ _ _ _ _ _ _ _ _ h2 h3))))
  end.
Defined.

(** Two passes on the same observation with the same network, the noise
    untouched in between, and no quantile fractions given: the second pass
    draws other fractions and returns other values.  Likewise two calls of
    [get_exploration_action] with [epsilon = 0]: the first picks action 1,
    the second, on the same observation and the same noise, action 0. *)
Lemma forward_without_tau_not_deterministic :
  exists q1 tau1 q2 tau2 v1 v2 self1 self2,
    forward Toy.cospi Toy.uniform_ Toy.NoisyLinear_forward Toy.agent
      (unsqueeze 0 (Toy.img 256)) (unsqueeze 0 (Toy.feat 1)) 1 None 0 = Ok (q1, tau1, 1) /\
    forward Toy.cospi Toy.uniform_ Toy.NoisyLinear_forward Toy.agent
      (unsqueeze 0 (Toy.img 256)) (unsqueeze 0 (Toy.feat 1)) 1 None 1 = Ok (q2, tau2, 2) /\
    (tau1.[0, 0] == 0)%Q /\ (tau2.[0, 0] == 1 # 2)%Q /\
    (q1.[0, 0] == 5)%Q /\ (q1.[0, 1] == 7)%Q /\
    (q2.[0, 0] == 3 # 2)%Q /\ (q2.[0, 1] == 1 # 2)%Q /\
    epsilon Toy.evaluator = 0%Q /\
    get_exploration_action Toy.cospi Toy.uniform_ Toy.NoisyLinear_forward
      Toy.NoisyLinear_reset_noise Toy.random_random Toy.random_randrange
      Toy.evaluator (Toy.img 256) (Toy.feat 1) 0 0 = Ok (1%Z, true, v1, self1, 1, 1) /\
    model self1 = model Toy.evaluator /\
    get_exploration_action Toy.cospi Toy.uniform_ Toy.NoisyLinear_forward
      Toy.NoisyLinear_reset_noise Toy.random_random Toy.random_randrange
      self1 (Toy.img 256) (Toy.feat 1) 1 1 = Ok (0%Z, true, v2, self2, 2, 2) /\
    (v1 == 7)%Q /\ (v2 == 3 # 2)%Q.
Proof.
  do 8 eexists.
  repeat (split; [vm_compute; reflexivity|]).
  vm_compute; reflexivity.
Qed.

(** A trainer with zero quantiles for training, a negative number of
    quantiles for acting, and a zero Huber threshold is constructed without
    complaint. *)
Lemma Trainer_init_accepts_invalid :
  exists t,
    Trainer_init Toy.agent Toy.agent 2 (-1) 0 0 (1 # 2) (9 # 10) 3 (1 # 2) = Ok t /\
    (iqn_k t <= 0)%Z /\ (iqn_n t <= 0)%Z /\ (iqn_kappa t <= 0)%Q.
Proof.
  eexists. split; [reflexivity|]. cbn. repeat split; try lia. discriminate.
Qed.

(** C6. On a batch of one transition [train_on_batch] does not return: the
    gather of line 215 is handed the one-dimensional [actions] as index
    into the (1, n_actions) matrix of quantile-averaged values and raises.
    The same step with [actions] as a column for the two PAL gathers runs to
    the end. *)
Theorem train_on_batch_batch1_raises :
  train_on_batch Toy.cospi Toy.uniform_ Toy.NoisyLinear_forward
    Toy.NoisyLinear_reset_noise Toy.trainer1 Toy.batch1 [1%Q] 0
    = Err (DimMismatch "gather") /\
  is_ok (train_on_batch_body Toy.cospi Toy.uniform_ Toy.NoisyLinear_forward
           Toy.NoisyLinear_reset_noise Toy.column Toy.trainer1 Toy.batch1 [1%Q] 0)
    = true.
Proof.
  split; vm_compute; reflexivity.
Qed.

(** C4. The PAL blocks as written hand the one-dimensional [actions] of the
    batch to [torch.gather] (lines 215 and 230): whatever the quantile
    values and the batch, both blocks raise, so no advantage gap and no
    correction is ever computed.  On the small batch the error is that of
    the gather; with the same actions as a column both blocks return, and
    the correction for [AL_alpha = 1/2] is non-negative in every row. *)
Theorem pal_gathers_raise_on_batch_actions :
  (forall (iqn_n batch_size n_actions : Z) (q_alla : tensor Q) (batch : list Transition),
     (exists e, pal_next iqn_n batch_size n_actions q_alla (of_list (map action batch))
                = Err e) /\
     (exists e, pal_cur iqn_n batch_size n_actions q_alla (of_list (map action batch))
                = Err e)) /\
  pal_next 2 2 2 Toy.q_next_alla (of_list (map action Toy.batch))
    = Err (DimMismatch "gather") /\
  pal_cur 2 2 2 Toy.q_cur_alla (of_list (map action Toy.batch))
    = Err (DimMismatch "gather") /\
  exists v_s q_s_a v_stpot q_stpot_a corr,
    pal_cur 2 2 2 Toy.q_cur_alla (Toy.column (of_list (map action Toy.batch)))
      = Ok (v_s, q_s_a) /\
    pal_next 2 2 2 Toy.q_next_alla (Toy.column (of_list (map action Toy.batch)))
      = Ok (v_stpot, q_stpot_a) /\
    pal_correction (1 # 2) 2 v_s q_s_a v_stpot q_stpot_a = Ok corr /\
    forall r, r < 4 -> (0 <= corr.[r, 0])%Q.
Proof.
  split.
  { intros iqn_n batch_size n_actions q_alla batch. split.
    - now apply pal_next_rank1.
    - now apply pal_cur_rank1. }
  split; [vm_compute; reflexivity|].
  split; [vm_compute; reflexivity|].
  do 5 eexists.
  split; [vm_compute; reflexivity|].
  split; [vm_compute; reflexivity|].
  split; [vm_compute; reflexivity|].
  intros r Hr.
  destruct r as [|[|[|[|r]]]]; [| | | |lia]; vm_compute; discriminate.
Qed.

(** C5. On the small batch of two transitions: the target network's pass on
    the next state draws [tau], the PAL gather of line 215 then raises, and
    so does [train_on_batch]; the online pass of line 220, which is to be
    given [tau], is not run.  In the same step with [actions] as a column
    for the two PAL gathers the online pass on the current state is given
    the [tau] of the target pass, returns it and draws nothing. *)
Theorem train_on_batch_raises_before_online_pass :
  exists (next_img next_float q_stpo_alla t0 q_stpot_alla tau : tensor Q)
         (m m2 : Agent Toy.NoisyLinear) (ga gb g1 g2 : Toy.rng),
    stack (map next_state_img Toy.batch) = Ok next_img /\
    stack (map next_state_float Toy.batch) = Ok next_float /\
    reset_noise Toy.NoisyLinear_reset_noise (model Toy.trainer) 0 = (m, ga) /\
    forward Toy.cospi Toy.uniform_ Toy.NoisyLinear_forward m next_img next_float
      (iqn_n Toy.trainer) None ga = Ok (q_stpo_alla, t0, gb) /\
    reset_noise Toy.NoisyLinear_reset_noise (model2 Toy.trainer) gb = (m2, g1) /\
    forward Toy.cospi Toy.uniform_ Toy.NoisyLinear_forward m2 next_img next_float
      (iqn_n Toy.trainer) None g1 = Ok (q_stpot_alla, tau, g2) /\
    pal_next (iqn_n Toy.trainer) (batch_size Toy.trainer) (n_actions m) q_stpot_alla
      (of_list (map action Toy.batch)) = Err (DimMismatch "gather") /\
    train_on_batch Toy.cospi Toy.uniform_ Toy.NoisyLinear_forward
      Toy.NoisyLinear_reset_noise Toy.trainer Toy.batch [1; 1]%Q 0
      = Err (DimMismatch "gather") /\
    exists (s : step Toy.rng Toy.NoisyLinear) (cur_img cur_float : tensor Q) (g3 : Toy.rng),
      train_on_batch_body Toy.cospi Toy.uniform_ Toy.NoisyLinear_forward
        Toy.NoisyLinear_reset_noise Toy.column Toy.trainer Toy.batch [1; 1]%Q 0 = Ok s /\
      stack (map state_img Toy.batch) = Ok cur_img /\
      stack (map state_float Toy.batch) = Ok cur_float /\
      st_tau s = tau /\
      forward Toy.cospi Toy.uniform_ Toy.NoisyLinear_forward (model (st_trainer s))
        cur_img cur_float (iqn_n Toy.trainer) (Some tau) g3
        = Ok (st_outputs s, tau, g3) /\
      st_rng s = g3.
Proof.
  do 12 eexists.
  do 8 (split; [vm_compute; reflexivity|]).
  do 4 eexists.
  do 5 (split; [vm_compute; reflexivity|]).
  vm_compute; reflexivity.
Qed.

(** * Further properties of the code *)

(** ** The loss is a loss *)

Lemma Qdiv_nonneg (x k : Q) : (0 <= x)%Q -> (0 <= k)%Q -> (0 <= x / k)%Q.
Proof.
  intros Hx Hk. unfold Qdiv. apply Qmult_le_0_compat; [exact Hx|].
  now apply Qinv_le_0_compat.
Qed.

Lemma Qsquare_nonneg (x : Q) : (0 <= x ^ 2)%Q.
Proof.
  change (x ^ 2)%Q with (x * x)%Q.
  destruct (Qlt_le_dec x 0) as [Hneg|Hpos].
  - setoid_replace (x * x)%Q with ((- x) * (- x))%Q by ring.
    apply Qmult_le_0_compat; lra.
  - now apply Qmult_le_0_compat.
Qed.

Lemma pinball_nonneg (kappa tau td : Q) :
  (0 < kappa)%Q -> (0 <= tau)%Q -> (tau <= 1)%Q -> (0 <= pinball kappa tau td)%Q.
Proof.
  intros Hk H0 H1. unfold pinball.
  apply Qdiv_nonneg; [|lra].
  apply Qmult_le_0_compat.
  - destruct (Qlt_bool td 0); lra.
  - destruct (Qle_bool (Qabs td) kappa) eqn:E.
    + apply Qmult_le_0_compat; [lra|apply Qsquare_nonneg].
    + assert (Hgt : (kappa < Qabs td)%Q).
      { apply Qnot_le_lt. intros Hle. apply Qle_bool_iff in Hle. congruence. }
      apply Qmult_le_0_compat; lra.
Qed.

Lemma pinball_zero (kappa tau td : Q) :
  (0 < kappa)%Q -> (td == 0)%Q -> (pinball kappa tau td == 0)%Q.
Proof.
  intros Hk Htd. unfold pinball.
  assert (Habs : (Qabs td == 0)%Q) by (rewrite Htd; reflexivity).
  assert (E : Qle_bool (Qabs td) kappa = true) by (apply Qle_bool_iff; lra).
  rewrite E.
  change (td ^ 2)%Q with (td * td)%Q.
  assert (Hz : ~ (kappa == 0)%Q) by lra.
  destruct (Qlt_bool td 0); rewrite Htd; field; exact Hz.
Qed.

Lemma Qsum_nonneg (A : Type) (f : A -> Q) (l : list A) :
  (forall a, In a l -> (0 <= f a)%Q) -> (0 <= Qsum (map f l))%Q.
Proof.
  induction l as [|a l IH]; intros Hf; simpl; [lra|].
  pose proof (Hf a (or_introl eq_refl)).
  assert (0 <= Qsum (map f l))%Q by (apply IH; intros; apply Hf; now right).
  lra.
Qed.

Lemma Qsum_zero (A : Type) (f : A -> Q) (l : list A) :
  (forall a, In a l -> (f a == 0)%Q) -> (Qsum (map f l) == 0)%Q.
Proof.
  induction l as [|a l IH]; intros Hf; simpl; [reflexivity|].
  rewrite (Hf a (or_introl eq_refl)), IH; [ring|].
  intros; apply Hf; now right.
Qed.

Lemma Qmean_nonneg (l : list Q) : (0 <= Qsum l)%Q -> (0 <= Qmean l)%Q.
Proof.
  intros Hs. unfold Qmean. apply Qdiv_nonneg; [exact Hs|].
  change 0%Q with (inject_Z 0). rewrite <- Zle_Qle. lia.
Qed.


Lemma Toy_fractions_unit (r : nat) :
  r < 2 * 2 -> (0 <= Toy.fractions.[r, 0])%Q /\ (Toy.fractions.[r, 0] <= 1)%Q.
Proof.
  intros Hr.
  destruct r as [|[|[|[|r]]]]; [| | | |lia]; split; vm_compute; discriminate.
Qed.


(** ** Action selection and the gathers at the chosen actions *)

Lemma forallb_build {A : Type} (P : A -> bool) (sh : list nat) (f : list nat -> A) :
  (forall idx, P (f idx) = true) -> forallb P (data (build sh f)) = true.
Proof.
  intros Hf. unfold build; simpl. apply forallb_forall.
  intros x Hx. apply in_map_iff in Hx. destruct Hx as (k & <- & _). apply Hf.
Qed.

Lemma list_argmax_lt (f : nat -> Q) (a : nat) :
  0 < a -> list_argmax (map f (seq 0 a)) < a.
Proof.
  intros Ha.
  assert (Hne : map f (seq 0 a) <> []) by (destruct a; [lia|discriminate]).
  destruct (list_argmax_spec _ Hne) as (Hlt & _).
  now rewrite length_map, length_seq in Hlt.
Qed.

Lemma get_unsqueeze_column {A : Type} `{Dflt A} (t : tensor A) (b i : nat) :
  shape t = [b] -> get (unsqueeze 1 t) [i; 0] = t.[i].
Proof.
  intros Hsh. unfold unsqueeze. apply get_data. rewrite Hsh. simpl. lia.
Qed.

Section SelectAction.
Variables (n b a : nat) (q_stpo_alla : tensor Q).
Hypothesis Ha : 0 < a.
Hypothesis Hq : shape q_stpo_alla = [n * b; a].

#[local] Abbreviation qbar := (quantile_average n b a q_stpo_alla).

(** The greedy action of batch item [i]. *)
#[local] Abbreviation greedy i := (list_argmax (map (fun k => qbar.[i, k]) (seq 0 a))).

Lemma select_action_ok :
  exists a_tpo,
    select_action (Z.of_nat n) (Z.of_nat b) (Z.of_nat a) q_stpo_alla = Ok a_tpo /\
    shape a_tpo = [n * b; 1] /\
    forallb (fun z => (0 <=? z) && (z <? Z.of_nat a))%Z (data a_tpo) = true /\
    forall i k, i < b -> k < n -> a_tpo.[k * b + i, 0] = Z.of_nat (greedy i).
Proof using Ha Hq.
  assert (Sq : shape qbar = [b; a]) by reflexivity.
  set (t := reduce (fun l => Z.of_nat (list_argmax l)) 1 qbar).
  assert (St : shape t = [b]) by reflexivity.
  assert (Hin : forall z, In z (data t) -> (0 <= z < Z.of_nat a)%Z).
  { intros z Hz. unfold t, reduce, build in Hz. cbn [data] in Hz.
    apply in_map_iff in Hz. destruct Hz as (k & <- & _).
    unfold fibre, size. rewrite Sq. cbn [nth].
    split; [lia|]. apply Nat2Z.inj_lt. apply (list_argmax_lt _ a Ha). }
  assert (Hall : forall idx, (fun z => (0 <=? z) && (z <? Z.of_nat a))%Z
                               (get (unsqueeze 1 t) idx) = true).
  { intros idx. unfold get. cbn [unsqueeze data].
    apply (forallb_nth (fun z => (0 <=? z) && (z <? Z.of_nat a))%Z).
    - apply forallb_forall. intros z Hz. apply Hin in Hz.
      apply andb_true_iff. split; [apply Z.leb_le|apply Z.ltb_lt]; lia.
    - unfold dflt, Dflt_Z. apply andb_true_iff.
      split; [now apply Z.leb_le|apply Z.ltb_lt; lia]. }
  unfold select_action.
  rewrite (reshape_rows n b a) by exact Hq. cbn [bind].
  change (tmean 0 (mkT [n; b; a] (data q_stpo_alla))) with (Ok qbar). cbn [bind].
  assert (Hargmax : targmax 1 qbar = Ok t).
  { unfold targmax, rank, size. rewrite Sq. simpl.
    destruct (Nat.eqb_spec a 0); [lia|reflexivity]. }
  rewrite Hargmax. cbn [bind].
  unfold slice_none, rank. rewrite St. cbn [length Nat.ltb Nat.leb Nat.add bind].
  rewrite (trepeat_column n b) by now rewrite shape_unsqueeze, St.
  eexists. split; [reflexivity|]. split; [reflexivity|]. split.
  - apply forallb_build. intros idx. apply Hall.
  - intros i k Hi Hk.
    pose proof (row_lt k n b i Hk Hi) as Hr.
    rewrite get_build by (simpl; lia).
    cbn [map2]. rewrite mod_row by exact Hi. change (0 mod 1) with 0.
    rewrite (get_unsqueeze_column t b i St).
    unfold t, reduce. rewrite Sq. tsimp. reflexivity.
Qed.

End SelectAction.

(** X3. Action selection yields, for every batch item and once per quantile
    sample, the first action at which the quantile-averaged online values
    of the item are largest; these are valid actions, so the gather of the
    target network's quantile values at them is defined and reads, in every
    row, the entry of the chosen action. *)
Theorem select_action_greedy
    (n b a : nat) (q_stpo_alla q_stpot_alla : tensor Q) :
  0 < a ->
  shape q_stpo_alla = [n * b; a] ->
  shape q_stpot_alla = [n * b; a] ->
  exists a_tpo q_stpot_atpot,
    select_action (Z.of_nat n) (Z.of_nat b) (Z.of_nat a) q_stpo_alla = Ok a_tpo /\
    shape a_tpo = [n * b; 1] /\
    gather q_stpot_alla 1 a_tpo = Ok q_stpot_atpot /\
    shape q_stpot_atpot = [n * b; 1] /\
    forall i k, i < b -> k < n ->
      exists j, j < a /\
        a_tpo.[k * b + i, 0] = Z.of_nat j /\
        (forall j', j' < a ->
           ((quantile_average n b a q_stpo_alla).[i, j']
            <= (quantile_average n b a q_stpo_alla).[i, j])%Q) /\
        (forall j', j' < j ->
           ((quantile_average n b a q_stpo_alla).[i, j']
            < (quantile_average n b a q_stpo_alla).[i, j])%Q) /\
        q_stpot_atpot.[k * b + i, 0] = q_stpot_alla.[k * b + i, j].
Proof.
  intros Ha Hq Hq2.
  destruct (select_action_ok n b a q_stpo_alla Ha Hq) as (a_tpo & Esel & Sa & Hall & Ga).
  pose proof (gather_dim1_ok q_stpot_alla a_tpo (n * b) a 1 Hq2 Sa Hall) as Hg.
  exists a_tpo. eexists.
  split; [exact Esel|]. split; [exact Sa|]. split; [exact Hg|]. split; [reflexivity|].
  intros i k Hi Hk.
  pose proof (row_lt k n b i Hk Hi) as Hr.
  set (row := map (fun k0 => (quantile_average n b a q_stpo_alla).[i, k0]) (seq 0 a)).
  assert (Hne : row <> []) by (unfold row; destruct a; [lia|discriminate]).
  destruct (list_argmax_spec row Hne) as (Hlt & Hv & Hle & Hfirst).
  unfold row in Hlt. rewrite length_map, length_seq in Hlt. fold row in Hlt.
  exists (list_argmax row).
  split; [exact Hlt|]. split; [exact (Ga i k Hi Hk)|].
  assert (Hnth : forall j', j' < a ->
            nth j' row 0%Q = (quantile_average n b a q_stpo_alla).[i, j']).
  { intros j' Hj'. unfold row. now rewrite nth_map_seq. }
  split; [|split].
  - intros j' Hj'. rewrite <- (Hnth j' Hj'), <- (Hnth _ Hlt), Hv.
    apply Hle. unfold row. now rewrite length_map, length_seq.
  - intros j' Hj'. rewrite <- (Hnth j' ltac:(lia)), <- (Hnth _ Hlt), Hv.
    now apply Hfirst.
  - rewrite get_build by (simpl; lia). cbn [replace_at].
    now rewrite (Ga i k Hi Hk), Nat2Z.id.
Qed.

Lemma select_action_greedy_witness :
  0 < 2 /\
  shape Toy.q_cur_alla = [2 * 2; 2] /\
  shape Toy.q_next_alla = [2 * 2; 2] /\
  exists a_tpo q_stpot_atpot,
    select_action (Z.of_nat 2) (Z.of_nat 2) (Z.of_nat 2) Toy.q_cur_alla = Ok a_tpo /\
    shape a_tpo = [2 * 2; 1] /\
    gather Toy.q_next_alla 1 a_tpo = Ok q_stpot_atpot /\
    shape q_stpot_atpot = [2 * 2; 1] /\
    forall i k, i < 2 -> k < 2 ->
      exists j, j < 2 /\
        a_tpo.[k * 2 + i, 0] = Z.of_nat j /\
        (forall j', j' < 2 ->
           ((quantile_average 2 2 2 Toy.q_cur_alla).[i, j']
            <= (quantile_average 2 2 2 Toy.q_cur_alla).[i, j])%Q) /\
        (forall j', j' < j ->
           ((quantile_average 2 2 2 Toy.q_cur_alla).[i, j']
            < (quantile_average 2 2 2 Toy.q_cur_alla).[i, j])%Q) /\
        q_stpot_atpot.[k * 2 + i, 0] = Toy.q_next_alla.[k * 2 + i, j].
Proof.
  assert (h1 : 0 < 2) by lia.
  exact (conj h1 (conj eq_refl (conj eq_refl
           (select_action_greedy 2 2 2 Toy.q_cur_alla Toy.q_next_alla
              h1 eq_refl eq_refl)))).
Defined.

Lemma forallb_build_in_range {A : Type} (P : A -> bool) (sh : list nat) (f : list nat -> A) :
  (forall idx, in_range sh idx -> P (f idx) = true) ->
  forallb P (data (build sh f)) = true.
Proof.
  intros Hf. unfold build; cbn [data]. apply forallb_forall.
  intros x Hx. apply in_map_iff in Hx. destruct Hx as (k & <- & Hk).
  apply in_seq in Hk. apply Hf. apply unravel_in_range. lia.
Qed.

Lemma replicate_actions_ok (n : nat) (acts : list Z) :
  replicate_actions (Z.of_nat n) (of_list acts) =
  Ok (build [n * length acts; 1]
        (fun idx => get (unsqueeze 1 (of_list acts)) (map2 Nat.modulo idx [length acts; 1]))).
Proof.
  unfold replicate_actions, slice_none, rank.
  cbn [of_list shape length Nat.ltb Nat.leb Nat.add bind].
  now rewrite (trepeat_column n (length acts)).
Qed.

(** X4. When every action of the batch is a valid action, the prediction
    that enters the loss is, for batch item [i] and quantile sample [k], the
    online network's value of the action taken in item [i], read in the row
    of that item and sample; its shape is (batch_size, iqn_n, 1). *)
Theorem prediction_at_taken_action
    (n b a : nat) (outputs : tensor Q) (acts : list Z) :
  length acts = b ->
  (forall z, In z acts -> (0 <= z < Z.of_nat a)%Z) ->
  shape outputs = [n * b; a] ->
  exists actions_n prediction,
    replicate_actions (Z.of_nat n) (of_list acts) = Ok actions_n /\
    align_prediction (Z.of_nat n) (Z.of_nat b) outputs actions_n = Ok prediction /\
    shape prediction = [b; n; 1] /\
    forall i k, i < b -> k < n ->
      prediction.[i, k, 0] = outputs.[k * b + i, Z.to_nat (nth i acts 0%Z)].
Proof.
  intros Hlen Hacts Houtputs.
  rewrite replicate_actions_ok, Hlen.
  set (actions_n := build [n * b; 1] _).
  assert (Gact : forall r, r < n * b ->
            actions_n.[r, 0] = nth (r mod b) acts 0%Z /\ r mod b < b).
  { intros r Hr.
    assert (Hb : b <> 0) by (intros ->; lia).
    unfold actions_n. rewrite get_build by (simpl; lia).
    cbn [map2]. change (0 mod 1) with 0.
    rewrite (get_unsqueeze_column (of_list acts) b) by (cbn; now rewrite Hlen).
    split; [|now apply Nat.mod_upper_bound].
    unfold get, of_list. cbn [shape data ravel numel].
    f_equal. lia. }
  assert (Hall : forallb (fun z => (0 <=? z) && (z <? Z.of_nat a))%Z (data actions_n) = true).
  { apply forallb_build_in_range. intros [|r [|c [|e idx]]]; simpl; try tauto.
    intros (Hr & Hc & _). assert (c = 0) by lia. subst c.
    destruct (Gact r Hr) as [G Hm]. unfold actions_n in G.
    rewrite get_build in G by (simpl; lia).
    cbn [map2] in G. change (0 mod 1) with 0 in G. rewrite G.
    assert (Hin : In (nth (r mod b) acts 0%Z) acts) by (apply nth_In; lia).
    apply Hacts in Hin.
    apply andb_true_iff. split; [apply Z.leb_le|apply Z.ltb_lt]; lia. }
  exists actions_n. unfold align_prediction.
  rewrite (gather_dim1_ok outputs actions_n (n * b) a 1 Houtputs eq_refl Hall). cbn [bind].
  change 1%Z with (Z.of_nat 1).
  rewrite (reshape_rows n b 1) by now rewrite shape_build. cbn [bind].
  unfold transpose, rank. cbn [shape length Nat.ltb Nat.leb andb].
  eexists. split; [reflexivity|]. split; [reflexivity|]. split; [reflexivity|].
  intros i k Hi Hk.
  pose proof (row_lt k n b i Hk Hi) as Hr.
  rewrite get_build by (simpl; lia). cbn [swap_at replace_at nth].
  rewrite (get_reshape_rows n b 1) by now rewrite shape_build.
  rewrite get_build by (simpl; lia). cbn [replace_at].
  destruct (Gact _ Hr) as [G _]. rewrite G, mod_row by exact Hi. reflexivity.
Qed.

Lemma Toy_actions_valid (z : Z) :
  In z [1; 0]%Z -> (0 <= z < Z.of_nat 2)%Z.
Proof. intros [<-|[<-|[]]]; lia. Qed.

Lemma prediction_at_taken_action_witness :
  length [1; 0]%Z = 2 /\
  (forall z, In z [1; 0]%Z -> (0 <= z < Z.of_nat 2)%Z) /\
  shape Toy.q_cur_alla = [2 * 2; 2] /\
  exists actions_n prediction,
    replicate_actions (Z.of_nat 2) (of_list [1; 0]%Z) = Ok actions_n /\
    align_prediction (Z.of_nat 2) (Z.of_nat 2) Toy.q_cur_alla actions_n = Ok prediction /\
    shape prediction = [2; 2; 1] /\
    forall i k, i < 2 -> k < 2 ->
      prediction.[i, k, 0] = Toy.q_cur_alla.[k * 2 + i, Z.to_nat (nth i [1; 0]%Z 0%Z)].
Proof.
  exact (conj eq_refl (conj Toy_actions_valid (conj eq_refl
           (prediction_at_taken_action 2 2 2 Toy.q_cur_alla [1; 0]%Z
              eq_refl Toy_actions_valid eq_refl)))).
Defined.

(** ** A negative number of quantiles *)

Section NegativeQuantiles.
Variable cospi : Q -> Q.
Variable rng : Type.
Variable uniform_ : rng -> nat -> list Q * rng.
Variable NoisyLinear : Type.
Variable NoisyLinear_forward : NoisyLinear -> tensor Q -> result (tensor Q).
Variable NoisyLinear_reset_noise : NoisyLinear -> rng -> NoisyLinear * rng.
Variable pyrng : Type.
Variable random_random : pyrng -> Q * pyrng.
Variable random_randrange : pyrng -> Z -> Z -> result (Z * pyrng).

#[local] Abbreviation forward' := (forward cospi uniform_ NoisyLinear_forward).
#[local] Abbreviation get_exploration_action' :=
  (get_exploration_action cospi uniform_ NoisyLinear_forward NoisyLinear_reset_noise
     random_random random_randrange).

Lemma forward_negative_quantiles
    (self : Agent NoisyLinear) (img float_inputs : tensor Q) (num_quantiles : Z)
    (tau : option (tensor Q)) (g : rng) :
  (num_quantiles < 0)%Z ->
  exists e, forward' self img float_inputs num_quantiles tau g = Err e.
Proof.
  intros Hneg. unfold forward.
  apply bind_raises. intros [[concat tau'] g'] E. exfalso.
  unfold gated_embedding in E.
  do 5 inv_bind E.
  inv_bind E. match goal with x : (tensor Q * rng)%type |- _ => destruct x end.
  do 3 inv_bind E.
  inv_bind E.
  match goal with
  | H : trepeat _ [num_quantiles; 1%Z] = Ok _ |- _ =>
      unfold trepeat in H; cbn [existsb] in H;
      destruct (Z.ltb_spec num_quantiles 0); [discriminate H|lia]
  end.
Qed.

(** X6. The number of quantiles is not checked where it is stored, and a
    negative one fails at the first use: [forward] raises for a negative
    [num_quantiles] whatever its other arguments, and so
    [get_exploration_action] raises on a trainer whose [iqn_k] is
    negative. *)
Theorem negative_quantile_count_raises (num_quantiles : Z) :
  (num_quantiles < 0)%Z ->
  (forall (self : Agent NoisyLinear) (img float_inputs : tensor Q)
          (tau : option (tensor Q)) (g : rng),
     exists e, forward' self img float_inputs num_quantiles tau g = Err e) /\
  (forall (self : Trainer NoisyLinear) (img_inputs float_inputs : tensor Q)
          (g : rng) (pg : pyrng),
     iqn_k self = num_quantiles ->
     exists e, get_exploration_action' self img_inputs float_inputs g pg = Err e).
Proof.
  intros Hneg. split.
  - intros. now apply forward_negative_quantiles.
  - intros self img_inputs float_inputs g pg Hk.
    unfold get_exploration_action.
    destruct (if Qlt_bool 0 (epsilon self) then _ else _) as [m g0].
    apply bind_raises. intros [[q tau] g1] E. exfalso.
    destruct (forward_negative_quantiles m (unsqueeze 0 img_inputs)
                (unsqueeze 0 float_inputs) (iqn_k self) None g0 ltac:(lia)) as [e He].
    congruence.
Qed.

End NegativeQuantiles.

Lemma negative_quantile_count_raises_witness :
  (-1 < 0)%Z /\
  (forall (self : Agent Toy.NoisyLinear) (img float_inputs : tensor Q)
          (tau : option (tensor Q)) (g : Toy.rng),
     exists e, forward Toy.cospi Toy.uniform_ Toy.NoisyLinear_forward
                 self img float_inputs (-1) tau g = Err e) /\
  (forall (self : Trainer Toy.NoisyLinear) (img_inputs float_inputs : tensor Q)
          (g : Toy.rng) (pg : Toy.pyrng),
     iqn_k self = (-1)%Z ->
     exists e, get_exploration_action Toy.cospi Toy.uniform_ Toy.NoisyLinear_forward
                 Toy.NoisyLinear_reset_noise Toy.random_random Toy.random_randrange
                 self img_inputs float_inputs g pg = Err e).
Proof.
  exact (conj eq_refl
           (negative_quantile_count_raises Toy.cospi _ Toy.uniform_ _
              Toy.NoisyLinear_forward Toy.NoisyLinear_reset_noise _
              Toy.random_random Toy.random_randrange (-1) eq_refl)).
Defined.

(** ** Where the training step stops *)

Section StepFailure.
Variable cospi : Q -> Q.
Variable rng : Type.
Variable uniform_ : rng -> nat -> list Q * rng.
Variable NoisyLinear : Type.
Variable NoisyLinear_forward : NoisyLinear -> tensor Q -> result (tensor Q).
Variable NoisyLinear_reset_noise : NoisyLinear -> rng -> NoisyLinear * rng.

#[local] Abbreviation forward' := (forward cospi uniform_ NoisyLinear_forward).
#[local] Abbreviation reset_noise' := (reset_noise NoisyLinear_reset_noise).
#[local] Abbreviation train_on_batch' :=
  (train_on_batch cospi uniform_ NoisyLinear_forward NoisyLinear_reset_noise).

(** X7. On a batch whose observations stack, with both next-state passes
    returning one row of at least one action value per quantile sample and
    batch item, every step of [train_on_batch] before the PAL block
    succeeds (replication of rewards, done flags and actions, action
    selection, the gather at the selected actions), and the step stops at
    the gather of line 215 with the error that the index must have as many
    dimensions as the input. *)
Theorem train_on_batch_stops_at_pal_gather
    (self : Trainer NoisyLinear) (batch : list Transition) (is_weights : list Q) (g : rng)
    (n b a : nat)
    (state_img_tensor state_float_tensor next_img_tensor next_float_tensor : tensor Q)
    (q_stpo_alla t0 q_stpot_alla tau : tensor Q) (g2 g4 : rng) :
  iqn_n self = Z.of_nat n ->
  batch_size self = Z.of_nat b ->
  n_actions (model self) = Z.of_nat a ->
  0 < a ->
  stack (map state_img batch) = Ok state_img_tensor ->
  stack (map state_float batch) = Ok state_float_tensor ->
  stack (map next_state_img batch) = Ok next_img_tensor ->
  stack (map next_state_float batch) = Ok next_float_tensor ->
  forward' (fst (reset_noise' (model self) g)) next_img_tensor next_float_tensor
           (iqn_n self) None (snd (reset_noise' (model self) g))
    = Ok (q_stpo_alla, t0, g2) ->
  shape q_stpo_alla = [n * b; a] ->
  forward' (fst (reset_noise' (model2 self) g2)) next_img_tensor next_float_tensor
           (iqn_n self) None (snd (reset_noise' (model2 self) g2))
    = Ok (q_stpot_alla, tau, g4) ->
  shape q_stpot_alla = [n * b; a] ->
  train_on_batch' self batch is_weights g = Err (DimMismatch "gather").
Proof.
  intros Hn Hb Hact Ha Hs1 Hs2 Hs3 Hs4 Hf1 Hq1 Hf2 Hq2.
  unfold train_on_batch, train_on_batch_body.
  rewrite Hs1, Hs2, Hs3, Hs4. cbn [bind].
  rewrite Hn, Hb in *.
  rewrite !replicate_column_ok, replicate_actions_ok. cbn [bind].
  pose proof (n_actions_reset_noise _ _ NoisyLinear_reset_noise (model self) g) as Hna.
  destruct (reset_noise' (model self) g) as [m g1]. cbn [fst snd] in *.
  rewrite Hf1. cbn [bind]. rewrite Hna, Hact.
  destruct (select_action_ok n b a q_stpo_alla Ha Hq1) as (a_tpo & Esel & Sa & Hall & _).
  rewrite Esel. cbn [bind].
  destruct (reset_noise' (model2 self) g2) as [m2 g3]. cbn [fst snd] in *.
  rewrite Hf2. cbn [bind].
  rewrite (gather_dim1_ok q_stpot_alla a_tpo (n * b) a 1 Hq2 Sa Hall). cbn [bind].
  unfold pal_next.
  rewrite (reshape_rows n b a) by exact Hq2. cbn [bind].
  change (tmean 0 (mkT [n; b; a] (data q_stpot_alla)))
    with (Ok (quantile_average n b a q_stpot_alla)). cbn [bind].
  assert (Hmax : tmax_keep 1 (quantile_average n b a q_stpot_alla)
                 = Ok (reduce_keep list_max 1 (quantile_average n b a q_stpot_alla))).
  { assert (Sq : shape (quantile_average n b a q_stpot_alla) = [b; a]) by reflexivity.
    unfold tmax_keep, rank, size. rewrite Sq. simpl.
    destruct (Nat.eqb_spec a 0); [lia|reflexivity]. }
  rewrite Hmax. cbn [bind].
  now rewrite (gather_rank_mismatch (quantile_average n b a q_stpot_alla)
                 (of_list (map action batch)) 1 eq_refl eq_refl).
Qed.

End StepFailure.

Lemma train_on_batch_stops_at_pal_gather_witness :
  exists state_img_tensor state_float_tensor next_img_tensor next_float_tensor
         q_stpo_alla t0 q_stpot_alla tau g2 g4,
    iqn_n Toy.trainer1 = Z.of_nat 2 /\
    batch_size Toy.trainer1 = Z.of_nat 1 /\
    n_actions (model Toy.trainer1) = Z.of_nat 2 /\
    0 < 2 /\
    stack (map state_img Toy.batch1) = Ok state_img_tensor /\
    stack (map state_float Toy.batch1) = Ok state_float_tensor /\
    stack (map next_state_img Toy.batch1) = Ok next_img_tensor /\
    stack (map next_state_float Toy.batch1) = Ok next_float_tensor /\
    forward Toy.cospi Toy.uniform_ Toy.NoisyLinear_forward
      (fst (reset_noise Toy.NoisyLinear_reset_noise (model Toy.trainer1) 0))
      next_img_tensor next_float_tensor (iqn_n Toy.trainer1) None
      (snd (reset_noise Toy.NoisyLinear_reset_noise (model Toy.trainer1) 0))
      = Ok (q_stpo_alla, t0, g2) /\
    shape q_stpo_alla = [2 * 1; 2] /\
    forward Toy.cospi Toy.uniform_ Toy.NoisyLinear_forward
      (fst (reset_noise Toy.NoisyLinear_reset_noise (model2 Toy.trainer1) g2))
      next_img_tensor next_float_tensor (iqn_n Toy.trainer1) None
      (snd (reset_noise Toy.NoisyLinear_reset_noise (model2 Toy.trainer1) g2))
      = Ok (q_stpot_alla, tau, g4) /\
    shape q_stpot_alla = [2 * 1; 2] /\
    train_on_batch Toy.cospi Toy.uniform_ Toy.NoisyLinear_forward
      Toy.NoisyLinear_reset_noise Toy.trainer1 Toy.batch1 [1%Q] 0
      = Err (DimMismatch "gather").
Proof.
  do 10 eexists.
  match goal with
  | |- ?P1 /\ ?P2 /\ ?P3 /\ ?P4 /\ ?P5 /\ ?P6 /\ ?P7 /\ ?P8 /\ ?P9 /\ ?P10 /\ ?P11 /\ ?P12 /\ _ =>
      assert (h1 : P1) by reflexivity;
      assert (h2 : P2) by reflexivity;
      assert (h3 : P3) by reflexivity;
      assert (h4 : P4) by lia;
      assert (h5 : P5) by (vm_compute; reflexivity);
      assert (h6 : P6) by (vm_compute; reflexivity);
      assert (h7 : P7) by (vm_compute; reflexivity);
      assert (h8 : P8) by (vm_compute; reflexivity);
      assert (h9 : P9) by (vm_compute; reflexivity);
      assert (h10 : P10) by reflexivity;
      assert (h11 : P11) by (vm_compute; reflexivity);
      assert (h12 : P12) by reflexivity;
      exact (conj h1 (conj h2 (conj h3 (conj h4 (conj h5 (conj h6 (conj h7 (conj h8
              (conj h9 (conj h10 (conj h11 (conj h12
                (train_on_batch_stops_at_pal_gather Toy.cospi _ Toy.uniform_ _
                   Toy.NoisyLinear_forward Toy.NoisyLinear_reset_noise
                   Toy.trainer1 Toy.batch1 [1%Q] 0 2 1 2 _ _ _ _ _ _ _ _ _ _
                   h1 h2 h3 h4 h5 h6 h7 h8 h9 h10 h11 h12)))))))))))))
  end.
Defined.

(** ** Exploration modes *)

Section Modes.
Variable cospi : Q -> Q.
Variable rng : Type.
Variable uniform_ : rng -> nat -> list Q * rng.
Variable NoisyLinear : Type.
Variable NoisyLinear_forward : NoisyLinear -> tensor Q -> result (tensor Q).
Variable NoisyLinear_reset_noise : NoisyLinear -> rng -> NoisyLinear * rng.
Variable pyrng : Type.
Variable random_random : pyrng -> Q * pyrng.
Variable random_randrange : pyrng -> Z -> Z -> result (Z * pyrng).

#[local] Abbreviation forward' := (forward cospi uniform_ NoisyLinear_forward).
#[local] Abbreviation reset_noise' := (reset_noise NoisyLinear_reset_noise).
#[local] Abbreviation get_exploration_action' :=
  (get_exploration_action cospi uniform_ NoisyLinear_forward NoisyLinear_reset_noise
     random_random random_randrange).

(** What [random.random()] promises: a number in [0, 1). *)
Hypothesis random_unit : forall pg,
  (0 <= fst (random_random pg))%Q /\ (fst (random_random pg) < 1)%Q.


End Modes.

Lemma Toy_random_unit (pg : Toy.pyrng) :
  (0 <= fst (Toy.random_random pg))%Q /\ (fst (Toy.random_random pg) < 1)%Q.
Proof.
  unfold Toy.random_random, Toy.draw. cbn [fst].
  pose proof (Nat.mod_upper_bound pg 3 ltac:(lia)) as Hm.
  destruct (pg mod 3) as [|[|[|k]]]; [| | |lia]; cbn [nth]; split; lra.
Qed.


(** ** The importance-weighted total loss (line 266) *)

Lemma Qsum_map_seq_nth (f : nat -> Q) (g : nat -> Q) (n : nat) :
  (forall i, i < n -> (f i == g i)%Q) ->
  (Qsum (map f (seq 0 n)) == Qsum (map g (seq 0 n)))%Q.
Proof.
  intros E. apply Qsum_map_ext. intros i Hi. apply in_seq in Hi. apply E. lia.
Qed.

(** X10. For per-item losses of shape (batch_size,): with one importance
    weight per item the total loss is the weighted sum of the per-item
    losses, non-negative when weights and losses are; with a different
    number of weights, other than one, and more than one item the product
    [is_weights * loss] raises. *)
Theorem total_loss_weighted_sum (b : nat) (ws : list Q) (loss : tensor Q) :
  shape loss = [b] ->
  (length ws = b ->
   exists weighted,
     tzip "mul" Qmult (of_list ws) loss = Ok weighted /\
     (get (tsum_all weighted) []
        == Qsum (map (fun i => nth i ws 0 * loss.[i]) (seq 0 b)))%Q /\
     ((forall i, i < b -> (0 <= nth i ws 0)%Q /\ (0 <= loss.[i])%Q) ->
      (0 <= get (tsum_all weighted) [])%Q)) /\
  (length ws <> b -> length ws <> 1 -> b <> 1 ->
   exists e, tzip "mul" Qmult (of_list ws) loss = Err e).
Proof.
  intros Hloss. split.
  - intros Hws.
    assert (Sw : shape loss = shape (of_list ws)) by (rewrite Hloss; simpl; congruence).
    rewrite (tzip_same _ _ _ _ Sw). eexists. split; [reflexivity|].
    assert (E : (get (tsum_all (build (shape (of_list ws))
                   (fun idx => bget (of_list ws) idx * bget loss idx)))%Q []
                 == Qsum (map (fun i => nth i ws 0 * loss.[i]) (seq 0 b)))%Q).
    { unfold tsum_all, get at 1. cbn [shape data ravel nth].
      unfold build. cbn [data shape of_list numel fold_right].
      rewrite Hws, Nat.mul_1_r.
      apply Qsum_map_seq_nth. intros i Hi.
      cbn [unravel numel fold_right]. rewrite Nat.div_1_r.
      assert (R1 : in_range (shape (of_list ws)) [i]) by (simpl; lia).
      assert (R2 : in_range (shape loss) [i]) by (rewrite Hloss; simpl; lia).
      rewrite (bget_in_range _ _ R1), (bget_in_range _ _ R2).
      unfold get at 1. cbn [shape data of_list ravel numel fold_right].
      rewrite Nat.mul_1_r, Nat.add_0_r. reflexivity. }
    split; [exact E|].
    intros Hnn. rewrite E. apply Qsum_nonneg. intros i Hi. apply in_seq in Hi.
    destruct (Hnn i ltac:(lia)) as [H1 H2]. now apply Qmult_le_0_compat.
  - intros H1 H2 H3. unfold tzip, broadcast_shapes.
    rewrite Hloss. cbn [shape of_list length Nat.max pad bzip].
    assert (D : bdim (length ws) b = None).
    { unfold bdim.
      destruct (Nat.eqb_spec (length ws) b); [contradiction|].
      destruct (Nat.eqb_spec (length ws) 1); [contradiction|].
      destruct (Nat.eqb_spec b 1); [contradiction|]. reflexivity. }
    simpl. rewrite D. eexists; reflexivity.
Qed.

Lemma total_loss_weighted_sum_witness :
  shape (of_list [1; 2]%Q) = [2] /\
  (length [1 # 2; 3]%Q = 2 ->
   exists weighted,
     tzip "mul" Qmult (of_list [1 # 2; 3]%Q) (of_list [1; 2]%Q) = Ok weighted /\
     (get (tsum_all weighted) []
        == Qsum (map (fun i => nth i [1 # 2; 3]%Q 0 * (of_list [1; 2]%Q).[i]) (seq 0 2)))%Q /\
     ((forall i, i < 2 ->
         (0 <= nth i [1 # 2; 3]%Q 0)%Q /\ (0 <= (of_list [1; 2]%Q).[i])%Q) ->
      (0 <= get (tsum_all weighted) [])%Q)) /\
  (length [1 # 2; 3]%Q <> 2 -> length [1 # 2; 3]%Q <> 1 -> 2 <> 1 ->
   exists e, tzip "mul" Qmult (of_list [1 # 2; 3]%Q) (of_list [1; 2]%Q) = Err e).
Proof.
  exact (conj eq_refl
           (total_loss_weighted_sum 2 [1 # 2; 3]%Q (of_list [1; 2]%Q) eq_refl)).
Defined.
